(** * The execd input plugin: stream demultiplexing, stderr routing, lifecycle

    A shallow embedding of [plugins/inputs/execd/execd.go] together with the
    parts of Go's [errors], [io], [bufio], [strings] and [strconv] packages
    the plugin calls.  Loops of the source ([for { ... }]) are functions with
    a fuel argument: [OutOfFuel] only ever means that the given fuel was too
    small, and the theorems exhibit a fuel for which the loop returns. *)

From Stdlib Require Import String Ascii.
From Stdlib Require Import List ZArith Lia Bool Arith PeanoNat.
From Stdlib.Strings Require Import Byte.
Import ListNotations.
Local Open Scope list_scope.

Set Implicit Arguments.

(** ** Results of running Go code *)

Inductive outcome (A : Type) : Type :=
| Done (a : A)      (* the call returned *)
| Panic             (* nil dereference *)
| OutOfFuel.        (* the fuel given to the model ran out *)

Arguments Done {A} a.
Arguments Panic {A}.
Arguments OutOfFuel {A}.

(** ** Go errors

    The sentinel values the plugin and [bufio] compare against, leaf errors
    identified by their message, the typed [*influx.ParseError], and errors
    that wrap another one ([fmt.Errorf] with [%w], [*fs.PathError]). *)

Inductive error : Type :=
| io_EOF
| io_ErrNoProgress
| os_ErrClosed
| bufio_ErrBufferFull
| bufio_ErrTooLong
| influx_EOF
| influx_ParseError (msg : string)
| errors_New (msg : string)
| Wrap (prefix : string) (inner : error).

Fixpoint error_eqb (a b : error) : bool :=
  match a, b with
  | io_EOF, io_EOF => true
  | io_ErrNoProgress, io_ErrNoProgress => true
  | os_ErrClosed, os_ErrClosed => true
  | bufio_ErrBufferFull, bufio_ErrBufferFull => true
  | bufio_ErrTooLong, bufio_ErrTooLong => true
  | influx_EOF, influx_EOF => true
  | influx_ParseError m, influx_ParseError n => String.eqb m n
  | errors_New m, errors_New n => String.eqb m n
  | Wrap p x, Wrap q y => String.eqb p q && error_eqb x y
  | _, _ => false
  end.

(** [errors.Is]: walks the [Unwrap] chain comparing with the target. *)
Fixpoint errors_Is (err target : error) : bool :=
  error_eqb err target ||
  match err with
  | Wrap _ inner => errors_Is inner target
  | _ => false
  end.

(** [errors.As(err, &parseErr)] with [parseErr : *influx.ParseError]: the
    first error of the chain that has that type. *)
Fixpoint errors_As_ParseError (err : error) : option error :=
  match err with
  | influx_ParseError _ => Some err
  | Wrap _ inner => errors_As_ParseError inner
  | _ => None
  end.

Definition isSome {A : Type} (o : option A) : bool :=
  match o with Some _ => true | None => false end.

(** ** io.Reader

    A reader is the script of what its successive [Read] calls will deliver:
    a chunk of bytes that became available, or an error.  A [Read] into a
    slice shorter than the chunk takes the front of the chunk and leaves the
    rest for the next call.  Past the end of the script every [Read] returns
    [io.EOF]. *)

Inductive ReadEvent : Type :=
| Data (chunk : list byte)
| Fail (err : error).

Definition io_Reader : Type := list ReadEvent.

Definition Read (r : io_Reader) (n : nat) : list byte * option error * io_Reader :=
  match r with
  | [] => ([], Some io_EOF, [])
  | Fail err :: r' => ([], Some err, r')
  | Data chunk :: r' =>
      if length chunk <=? n then (chunk, None, r')
      else (firstn n chunk, None, Data (skipn n chunk) :: r')
  end.

(** ** bytes.IndexByte *)

Fixpoint IndexByte (b : list byte) (c : byte) : option nat :=
  match b with
  | [] => None
  | x :: b' =>
      if Byte.eqb x c then Some 0
      else match IndexByte b' c with
           | Some i => Some (S i)
           | None => None
           end
  end.

Definition NL : byte := "010"%byte.
Definition CR : byte := "013"%byte.

(** ** bufio.Reader

    [buf] is the unread part [b.buf[b.r:b.w]] of the buffer and [size] is
    [len(b.buf)]; [fill] slides the unread part to the front before it
    reads, so the read offset itself never influences a result. *)

Record bufio_Reader : Type := mkReader {
  buf : list byte;
  size : nat;
  rd : io_Reader;
  err : option error
}.

Definition minReadBufferSize : Z := 16.
Definition maxConsecutiveEmptyReads : nat := 100.

Definition NewReaderSize (r : io_Reader) (sz : Z) : bufio_Reader :=
  {| buf := []; size := Z.to_nat (Z.max sz minReadBufferSize); rd := r; err := None |}.

Fixpoint fill_loop (i : nat) (b : bufio_Reader) : bufio_Reader :=
  match i with
  | 0 => {| buf := buf b; size := size b; rd := rd b; err := Some io_ErrNoProgress |}
  | S i' =>
      let '(p, e, r') := Read (rd b) (size b - length (buf b)) in
      let b' := {| buf := buf b ++ p; size := size b; rd := r'; err := err b |} in
      match e with
      | Some _ => {| buf := buf b'; size := size b'; rd := rd b'; err := e |}
      | None => if 0 <? length p then b' else fill_loop i' b'
      end
  end.

Definition fill (b : bufio_Reader) : bufio_Reader :=
  fill_loop maxConsecutiveEmptyReads b.

(** [ReadSlice]: [s] is the search start index of the source. *)
Fixpoint ReadSlice_loop (fuel : nat) (s : nat) (b : bufio_Reader) (delim : byte)
  : outcome (bufio_Reader * list byte * option error) :=
  match fuel with
  | 0 => OutOfFuel
  | S fuel' =>
      match IndexByte (skipn s (buf b)) delim with
      | Some i =>
          let i := i + s in
          Done ({| buf := skipn (i + 1) (buf b); size := size b; rd := rd b; err := err b |},
                firstn (i + 1) (buf b), None)
      | None =>
          match err b with
          | Some e =>
              Done ({| buf := []; size := size b; rd := rd b; err := None |}, buf b, Some e)
          | None =>
              if size b <=? length (buf b) then
                Done ({| buf := []; size := size b; rd := rd b; err := None |},
                      buf b, Some bufio_ErrBufferFull)
              else ReadSlice_loop fuel' (length (buf b)) (fill b) delim
          end
      end
  end.

Definition ReadSlice (fuel : nat) (b : bufio_Reader) (delim : byte) :=
  ReadSlice_loop fuel 0 b delim.

(** [collectFragments] and [ReadBytes]: the full buffers seen before the
    delimiter are accumulated and joined with the final fragment. *)
Fixpoint collectFragments (fuel : nat) (b : bufio_Reader) (delim : byte)
  (fullBuffers : list (list byte))
  : outcome (bufio_Reader * list (list byte) * list byte * option error) :=
  match fuel with
  | 0 => OutOfFuel
  | S fuel' =>
      match ReadSlice fuel' b delim with
      | Done (b', frag, None) => Done (b', fullBuffers, frag, None)
      | Done (b', frag, Some e) =>
          if error_eqb e bufio_ErrBufferFull
          then collectFragments fuel' b' delim (fullBuffers ++ [frag])
          else Done (b', fullBuffers, frag, Some e)
      | Panic => Panic
      | OutOfFuel => OutOfFuel
      end
  end.

Definition ReadBytes (fuel : nat) (b : bufio_Reader) (delim : byte)
  : outcome (bufio_Reader * list byte * option error) :=
  match collectFragments fuel b delim [] with
  | Done (b', full, frag, e) => Done (b', concat full ++ frag, e)
  | Panic => Panic
  | OutOfFuel => OutOfFuel
  end.

(** ** bufio.Scanner with the default split function [ScanLines]

    [s_buf] is [s.buf[s.start:s.end]], [s_len] is [len(s.buf)].  [ScanLines]
    never returns an error and never advances past the data it was given, so
    the error branches of [Scan] for a misbehaving split function are not
    reachable and are left out; a token it returns always comes with a
    positive advance, which keeps the empty-token counter at zero.  The
    buffer never grows beyond [MaxScanTokenSize], so the guard against an
    overflow of its doubled length never fires and is left out as well. *)

Definition MaxScanTokenSize : nat := 64 * 1024.
Definition startBufSize : nat := 4096.

Definition dropCR (data : list byte) : list byte :=
  match rev data with
  | c :: r => if Byte.eqb c CR then rev r else data
  | [] => data
  end.

Definition ScanLines (data : list byte) (atEOF : bool) : nat * option (list byte) :=
  if atEOF && (length data =? 0) then (0, None)
  else match IndexByte data NL with
       | Some i => (i + 1, Some (dropCR (firstn i data)))
       | None => if atEOF then (length data, Some (dropCR data)) else (0, None)
       end.

Record Scanner : Type := mkScanner {
  s_r : io_Reader;
  s_tok : option (list byte);
  s_buf : list byte;
  s_len : nat;
  s_start : nat;
  s_err : option error
}.

Definition NewScanner (r : io_Reader) : Scanner :=
  {| s_r := r; s_tok := None; s_buf := []; s_len := 0; s_start := 0; s_err := None |}.

Definition setErr (s : Scanner) (e : error) : Scanner :=
  match s_err s with
  | None =>
      {| s_r := s_r s; s_tok := s_tok s; s_buf := s_buf s; s_len := s_len s;
         s_start := s_start s; s_err := Some e |}
  | Some old =>
      if error_eqb old io_EOF then
        {| s_r := s_r s; s_tok := s_tok s; s_buf := s_buf s; s_len := s_len s;
           s_start := s_start s; s_err := Some e |}
      else s
  end.

(** The read loop at the end of [Scan]'s body; [k] counts the empty reads
    still tolerated.  A [Read] of the model never returns more bytes than it
    was asked for, so [ErrBadReadCount] cannot arise. *)
Fixpoint Scan_read (k : nat) (s : Scanner) : Scanner :=
  let '(p, e, r') := Read (s_r s) (s_len s - (s_start s + length (s_buf s))) in
  let s' := {| s_r := r'; s_tok := s_tok s; s_buf := s_buf s ++ p; s_len := s_len s;
               s_start := s_start s; s_err := s_err s |} in
  match e with
  | Some e' => setErr s' e'
  | None =>
      if 0 <? length p then s'
      else match k with
           | 0 => setErr s' io_ErrNoProgress
           | S k' => Scan_read k' s'
           end
  end.

(** "Shift data to beginning of buffer if there's lots of empty space or
    space is needed." *)
Definition Scan_shift (s : Scanner) : Scanner :=
  if (0 <? s_start s) &&
     ((s_start s + length (s_buf s) =? s_len s) || (s_len s / 2 <? s_start s))
  then {| s_r := s_r s; s_tok := s_tok s; s_buf := s_buf s; s_len := s_len s;
          s_start := 0; s_err := s_err s |}
  else s.

Definition Scan_newSize (len : nat) : nat :=
  Nat.min (if len * 2 =? 0 then startBufSize else len * 2) MaxScanTokenSize.

(** "See if we can get a token with what we already have": the advance is
    applied and the token, if any, stored. *)
Definition Scan_split (s : Scanner) : Scanner * option (list byte) :=
  let atEOF := isSome (s_err s) in
  if (0 <? length (s_buf s)) || atEOF then
    let '(advance, token) := ScanLines (s_buf s) atEOF in
    ({| s_r := s_r s; s_tok := token; s_buf := skipn advance (s_buf s);
        s_len := s_len s; s_start := s_start s + advance; s_err := s_err s |},
     token)
  else (s, None).

(** "Is the buffer full? If so, resize": [None] when it cannot grow. *)
Definition Scan_grow (s : Scanner) : option Scanner :=
  if s_start s + length (s_buf s) =? s_len s then
    if MaxScanTokenSize <=? s_len s then None
    else Some {| s_r := s_r s; s_tok := s_tok s; s_buf := s_buf s;
                 s_len := Scan_newSize (s_len s); s_start := 0; s_err := s_err s |}
  else Some s.

Fixpoint Scan (fuel : nat) (s : Scanner) : outcome (Scanner * bool) :=
  match fuel with
  | 0 => OutOfFuel
  | S fuel' =>
      let '(s1, token) := Scan_split s in
      match token with
      | Some _ => Done (s1, true)
      | None =>
          if isSome (s_err s) then
            Done ({| s_r := s_r s1; s_tok := s_tok s1; s_buf := []; s_len := s_len s1;
                     s_start := 0; s_err := s_err s1 |}, false)
          else
            let s2 := Scan_shift s1 in
            match Scan_grow s2 with
            | None => Done (setErr s2 bufio_ErrTooLong, false)
            | Some s3 => Scan fuel' (Scan_read maxConsecutiveEmptyReads s3)
            end
      end
  end.

Definition Scanner_Text (s : Scanner) : string :=
  match s_tok s with
  | Some t => string_of_list_byte t
  | None => EmptyString
  end.

Definition Scanner_Err (s : Scanner) : option error :=
  match s_err s with
  | Some e => if error_eqb e io_EOF then None else Some e
  | None => None
  end.

(** ** strings and strconv *)

Definition strings_HasPrefix (s prefix : string) : bool := String.prefix prefix s.

Definition strings_Contains (s substr : string) : bool :=
  isSome (String.index 0 substr s).

(** [s[n:]] *)
Definition slice_from (n : nat) (s : string) : string :=
  String.substring n (String.length s - n) s.

Definition lowerhex (n : nat) : ascii :=
  if n <? 10 then ascii_of_nat (48 + n) else ascii_of_nat (87 + n).

Definition quote_char : ascii := ascii_of_nat 34.
Definition backslash : ascii := ascii_of_nat 92.

Definition str1 (c : ascii) : string := String c EmptyString.
Definition esc (c : ascii) : string := String backslash (str1 c).

(** [strconv.appendEscapedRune] for a rune below [utf8.RuneSelf], quoting
    with a double quote. *)
Definition appendEscapedRune (c : ascii) : string :=
  let n := nat_of_ascii c in
  if (n =? 34) || (n =? 92) then esc c
  else if (32 <=? n) && (n <=? 126) then str1 c
  else if n =? 7 then esc "a"
  else if n =? 8 then esc "b"
  else if n =? 12 then esc "f"
  else if n =? 10 then esc "n"
  else if n =? 13 then esc "r"
  else if n =? 9 then esc "t"
  else if n =? 11 then esc "v"
  else String backslash (String "x" (String (lowerhex (n / 16)) (str1 (lowerhex (n mod 16))))).

(** ** telegraf.Parser values, by dynamic type *)

Inductive Parser (InfluxParser PluginParser : Type) : Type :=
| influx_Parser (p : InfluxParser)                          (* *influx.Parser *)
| models_RunningParser (inner : Parser InfluxParser PluginParser)
                                                            (* *models.RunningParser *)
| plugin_Parser (p : PluginParser).                         (* any other implementation *)

Arguments influx_Parser {InfluxParser PluginParser} p.
Arguments plugin_Parser {InfluxParser PluginParser} p.

(** A small parser used to run the model on concrete inputs: a line starting
    with [m] yields itself (delimiter included) as its one metric, a blank
    line yields no metric, any other line yields a parse error and no
    metric. *)
Definition line_Parse (p : Parser unit unit) (data : list byte)
  : Parser unit unit * (list (list byte) * option error) :=
  match data with
  | x :: _ =>
      if Byte.eqb x "m"%byte then (p, ([data], None))
      else if Byte.eqb x NL then (p, ([], None))
      else (p, ([], Some (errors_New "bad line")))
  | [] => (p, ([], None))
  end.

(** A decoder whose state is the list of results still to be returned by
    [Next]; at the end of the list it returns the end-of-stream sentinel. *)
Definition script_Next (d : list (list byte + error))
  : list (list byte + error) * (list byte + error) :=
  match d with
  | r :: d' => (d', r)
  | [] => ([], inr influx_EOF)
  end.

Definition bytes (s : string) : list byte := list_byte_of_string s.

(** A decoder made from a reader: every chunk the reader delivers is one
    metric, every read error is returned as it is. *)
Definition script_of (out : io_Reader) : list (list byte + error) :=
  map (fun ev => match ev with Data c => inl c | Fail e => inr e end) out.

(** Inputs the model is run on below. *)
Definition example_notice : string :=
  "No metrics were created from a message. Verify your parser settings. This message is only printed once.".

Definition example_lines : list (list byte) := [bytes "m v=1"; bytes "m v=2"].

Definition example_chunks : list (list byte) :=
  [bytes "m v"; bytes "=1" ++ [NL] ++ bytes "m v="; bytes "2" ++ [NL]].

Definition example_bad_chunks : list (list byte) :=
  [bytes "m v=1" ++ [NL] ++ bytes "oo"; bytes "ps" ++ [NL] ++ bytes "m v=2" ++ [NL]].

Definition example_cut_chunks : list (list byte) :=
  [bytes "m v=1" ++ [NL] ++ bytes "m v"].

Definition example_stderr_chunks : list (list byte) :=
  [bytes "W! disk"; bytes " full" ++ [CR; NL] ++ bytes "custom text" ++ [NL] ++ bytes "D! la"; bytes "st"].

Definition example_stream : io_Reader :=
  [Data (bytes "m v=1"); Fail (influx_ParseError "bad line"); Data (bytes "m v=2");
   Fail (errors_New "broken pipe"); Data (bytes "m v=3")].

(** Records among them a blank one and a malformed one, then an
    unterminated rest. *)
Definition example_mixed_lines : list (list byte) := [bytes "m v=1"; []; bytes "oops"].

Definition example_mixed_chunks : list (list byte) :=
  [bytes "m v=1" ++ [NL; NL] ++ bytes "oo"; bytes "ps" ++ [NL] ++ bytes "m v"].

(** What comes after a read error that cut the line [m v=7] in two. *)
Definition example_resumed_chunks : list (list byte) :=
  [bytes "=7" ++ [NL] ++ bytes "m v=2" ++ [NL]].

(** As many bytes without a line end as a token may not have. *)
Definition example_long : list byte := repeat "a"%byte MaxScanTokenSize.

Definition example_long_chunks : list (list byte) :=
  [(bytes "I! hi" ++ [NL]) ++ example_long ++ NL :: bytes "I! never"].

(** * The plugin *)

Section Execd.

(** The collaborators of the plugin that live in other packages. *)

Variable Metric : Type.                      (* telegraf.Metric *)
Variables InfluxParser PluginParser : Type.  (* parser implementations *)
Variable Parse : Parser InfluxParser PluginParser -> list byte ->
                 Parser InfluxParser PluginParser * (list Metric * option error).
Variable NoMetricsCreatedMsg : string.       (* internal.NoMetricsCreatedMsg *)
Variable Decoder : Type.                     (* *influx.StreamParser *)
Variable NewStreamParser : io_Reader -> Decoder.
Variable Next : Decoder -> Decoder * (Metric + error).
Variable ProcHandle : Type.                  (* the supervisor's private state *)
Variable process_New : list string -> list string -> ProcHandle + error.
Variable process_Start : ProcHandle -> option error.
(** The non-ASCII part of [strconv.Quote]: for a string whose first byte is
    at least [utf8.RuneSelf], the width in bytes of its first rune and the
    text appended for it (this is where the Unicode tables are consulted). *)
Variable quote_rune : string -> nat * string.

Local Abbreviation parser_t := (Parser InfluxParser PluginParser).

(** [%q]: [strconv.Quote]. *)
Fixpoint Quote_loop (skip : nat) (s : string) : string :=
  match s with
  | EmptyString => EmptyString
  | String c s' =>
      match skip with
      | S k => Quote_loop k s'
      | 0 =>
          if nat_of_ascii c <? 128 then (appendEscapedRune c ++ Quote_loop 0 s')%string
          else let '(width, text) := quote_rune s in
               (text ++ Quote_loop (width - 1) s')%string
      end
  end.

Definition strconv_Quote (s : string) : string :=
  String quote_char (Quote_loop 0 s ++ str1 quote_char)%string.

(** ** What the plugin does to the outside world

    The accumulator ([e.acc]), the logger ([e.Log]) and the parser are
    injected; calls to them are recorded in order.  [once_done] is the
    package-level [var once sync.Once]. *)

Inductive Level : Type := Level_Error | Level_Warn | Level_Info | Level_Debug | Level_Trace.

Inductive Event : Type :=
| Parse_call (data : list byte)       (* e.parser.Parse(data) *)
| AddMetric (m : Metric)               (* e.acc.AddMetric(m) *)
| AddError (err : error)               (* e.acc.AddError(err) *)
| Log (lvl : Level) (msg : string)     (* e.Log.<lvl>(msg) *)
| StartProcess (command : list string). (* e.process.Start() *)

Record World : Type := mkWorld {
  once_done : bool;
  events : list Event
}.

(** The world when the process starts. *)
Definition new_World : World := {| once_done := false; events := [] |}.

Definition emit (w : World) (ev : Event) : World :=
  {| once_done := once_done w; events := events w ++ [ev] |}.

(** [once.Do(f)] *)
Definition once_Do (f : World -> World) (w : World) : World :=
  if once_done w then w
  else {| once_done := true; events := events (f w) |}.

(** ** The Execd struct *)

Inductive OutputReader : Type := cmdReadOut_fn | cmdReadOutStream_fn.
Inductive ErrReader : Type := cmdReadErr_fn.

Record Process : Type := mkProcess {
  handle : ProcHandle;
  ReadStdoutFn : option OutputReader;
  ReadStderrFn : option ErrReader;
  p_RestartDelay : Z;
  p_StopOnError : bool
}.

Record Execd : Type := mkExecd {
  Command : list string;
  Environment : list string;
  BufferSize : Z;
  Signal : string;
  RestartDelay : Z;
  StopOnError : bool;
  process : option Process;
  parser : option parser_t;
  outputReader : option OutputReader
}.

Definition set_parser (e : Execd) (p : option parser_t) : Execd :=
  {| Command := Command e; Environment := Environment e; BufferSize := BufferSize e;
     Signal := Signal e; RestartDelay := RestartDelay e; StopOnError := StopOnError e;
     process := process e; parser := p; outputReader := outputReader e |}.

Definition set_outputReader (e : Execd) (f : option OutputReader) : Execd :=
  {| Command := Command e; Environment := Environment e; BufferSize := BufferSize e;
     Signal := Signal e; RestartDelay := RestartDelay e; StopOnError := StopOnError e;
     process := process e; parser := parser e; outputReader := f |}.

Definition set_process (e : Execd) (p : option Process) : Execd :=
  {| Command := Command e; Environment := Environment e; BufferSize := BufferSize e;
     Signal := Signal e; RestartDelay := RestartDelay e; StopOnError := StopOnError e;
     process := p; parser := parser e; outputReader := outputReader e |}.

(** The value registered by [init()]. *)
Definition new_Execd : Execd :=
  {| Command := []; Environment := []; BufferSize := 64 * 1024; Signal := "none";
     RestartDelay := 10 * 1000000000; StopOnError := false;
     process := None; parser := None; outputReader := None |}.

(** ** Init, SetParser, Start, Stop *)

Definition Init (e : Execd) : option error :=
  if length (Command e) =? 0 then Some (errors_New "no command specified")
  else None.

Definition SetParser (e : Execd) (p : parser_t) : Execd :=
  let e := set_parser e (Some p) in
  let e := set_outputReader e (Some cmdReadOut_fn) in
  match p with
  | models_RunningParser (influx_Parser _) => set_outputReader e (Some cmdReadOutStream_fn)
  | _ => e
  end.

Definition join_sp (l : list string) : string := String.concat " " l.

Definition spaces_warning : string :=
  ("The inputs.execd Command contained spaces but no arguments. " ++
   "This setting expects the program and arguments as an array of strings, " ++
   "not as a space-delimited string. See the plugin readme for an example.")%string.

Definition Start (e : Execd) (w : World) : Execd * World * option error :=
  match process_New (Command e) (Environment e) with
  | inr err => (set_process e None, w, Some (Wrap "error creating new process: " err))
  | inl h =>
      let p := {| handle := h; ReadStdoutFn := outputReader e;
                  ReadStderrFn := Some cmdReadErr_fn;
                  p_RestartDelay := RestartDelay e; p_StopOnError := StopOnError e |} in
      let e := set_process e (Some p) in
      let w := emit w (StartProcess (Command e)) in
      match process_Start h with
      | Some err =>
          let w :=
            if (length (Command e) =? 1) && strings_Contains (hd EmptyString (Command e)) " "
            then emit w (Log Level_Warn spaces_warning) else w in
          (e, w, Some (Wrap ("failed to start process [" ++ join_sp (Command e) ++ "]: ") err))
      | None => (e, w, None)
      end
  end.

Definition Stop (e : Execd) : outcome Execd :=
  match process e with
  | Some _ => Done e
  | None => Panic
  end.

(** ** cmdReadOut: the batch line demultiplexer *)

(** Lines 111 to 124: what one iteration does with a record it has read. *)
Definition cmdReadOut_record (e : Execd) (w : World) (data : list byte)
  : outcome (Execd * World) :=
  match parser e with
  | None => Panic
  | Some p =>
      let '(p', (metrics, perr)) := Parse p data in
      let e := set_parser e (Some p') in
      let w := emit w (Parse_call data) in
      let w := match perr with
               | Some err => emit w (AddError (Wrap "parse error: " err))
               | None => w
               end in
      let w := if length metrics =? 0
               then once_Do (fun w => emit w (Log Level_Debug NoMetricsCreatedMsg)) w
               else w in
      Done (e, fold_left (fun w m => emit w (AddMetric m)) metrics w)
  end.

Fixpoint cmdReadOut_loop (fuel : nat) (e : Execd) (rdr : bufio_Reader) (w : World)
  : outcome (Execd * World) :=
  match fuel with
  | 0 => OutOfFuel
  | S fuel' =>
      match ReadBytes fuel' rdr NL with
      | Done (rdr', _, Some err) =>
          if errors_Is err io_EOF || errors_Is err os_ErrClosed then Done (e, w)
          else cmdReadOut_loop fuel' e rdr'
                 (emit w (AddError (Wrap "error reading stdout: " err)))
      | Done (rdr', data, None) =>
          match cmdReadOut_record e w data with
          | Done (e', w') => cmdReadOut_loop fuel' e' rdr' w'
          | Panic => Panic
          | OutOfFuel => OutOfFuel
          end
      | Panic => Panic
      | OutOfFuel => OutOfFuel
      end
  end.

Definition cmdReadOut (fuel : nat) (e : Execd) (out : io_Reader) (w : World)
  : outcome (Execd * World) :=
  cmdReadOut_loop fuel e (NewReaderSize out (BufferSize e)) w.

(** ** cmdReadOutStream: the streaming demultiplexer *)

Fixpoint cmdReadOutStream_loop (fuel : nat) (d : Decoder) (w : World)
  : outcome (Decoder * World) :=
  match fuel with
  | 0 => OutOfFuel
  | S fuel' =>
      match Next d with
      | (d', inr err) =>
          if errors_Is err influx_EOF then Done (d', w)
          else match errors_As_ParseError err with
               | Some parseErr => cmdReadOutStream_loop fuel' d' (emit w (AddError parseErr))
               | None => Done (d', emit w (AddError err))
               end
      | (d', inl metric) => cmdReadOutStream_loop fuel' d' (emit w (AddMetric metric))
      end
  end.

Definition cmdReadOutStream (fuel : nat) (out : io_Reader) (w : World)
  : outcome (Decoder * World) :=
  cmdReadOutStream_loop fuel (NewStreamParser out) w.

(** ** cmdReadErr: the stderr router *)

(** The [switch] of lines 157 to 170. *)
Definition cmdReadErr_line (msg : string) : Event :=
  if strings_HasPrefix msg "E! " then Log Level_Error (slice_from 3 msg)
  else if strings_HasPrefix msg "W! " then Log Level_Warn (slice_from 3 msg)
  else if strings_HasPrefix msg "I! " then Log Level_Info (slice_from 3 msg)
  else if strings_HasPrefix msg "D! " then Log Level_Debug (slice_from 3 msg)
  else if strings_HasPrefix msg "T! " then Log Level_Trace (slice_from 3 msg)
  else Log Level_Error ("stderr: " ++ strconv_Quote msg)%string.

Fixpoint cmdReadErr_loop (fuel : nat) (scanner : Scanner) (w : World) : outcome World :=
  match fuel with
  | 0 => OutOfFuel
  | S fuel' =>
      match Scan fuel' scanner with
      | Done (scanner', true) =>
          cmdReadErr_loop fuel' scanner' (emit w (cmdReadErr_line (Scanner_Text scanner')))
      | Done (scanner', false) =>
          match Scanner_Err scanner' with
          | Some err => Done (emit w (AddError (Wrap "error reading stderr: " err)))
          | None => Done w
          end
      | Panic => Panic
      | OutOfFuel => OutOfFuel
      end
  end.

Definition cmdReadErr (fuel : nat) (out : io_Reader) (w : World) : outcome World :=
  cmdReadErr_loop fuel (NewScanner out) w.

(** ** Vocabulary of the statements *)

(** A split of a byte sequence into the pieces successive reads deliver. *)
Definition chunked (chunks : list (list byte)) : Prop :=
  Forall (fun c => c <> []) chunks.

(** A line followed by its delimiter. *)
Definition record (line : list byte) : list byte := line ++ [NL].

Definition no_NL (line : list byte) : Prop := ~ In NL line.

(** The reader that delivers a byte sequence in one piece. *)
Definition unsplit (input : list byte) : io_Reader :=
  match input with
  | [] => []
  | _ => [Data input]
  end.

Definition add_events (w : World) (evs : list Event) : World :=
  {| once_done := once_done w; events := events w ++ evs |}.

Fixpoint metrics_of (evs : list Event) : list Metric :=
  match evs with
  | AddMetric m :: evs' => m :: metrics_of evs'
  | _ :: evs' => metrics_of evs'
  | [] => []
  end.

Fixpoint parse_calls_of (evs : list Event) : list (list byte) :=
  match evs with
  | Parse_call d :: evs' => d :: parse_calls_of evs'
  | _ :: evs' => parse_calls_of evs'
  | [] => []
  end.

Fixpoint errors_of (evs : list Event) : list error :=
  match evs with
  | AddError e :: evs' => e :: errors_of evs'
  | _ :: evs' => errors_of evs'
  | [] => []
  end.

(** What the parser produces when it is handed the records one by one. *)
Fixpoint parser_metrics (p : parser_t) (records : list (list byte)) : list Metric :=
  match records with
  | [] => []
  | r :: rs => let '(p', (ms, _)) := Parse p r in ms ++ parser_metrics p' rs
  end.

Fixpoint parser_after (p : parser_t) (records : list (list byte)) : parser_t :=
  match records with
  | [] => p
  | r :: rs => parser_after (fst (Parse p r)) rs
  end.

(** Lines 111 to 124 applied to a sequence of records. *)
Fixpoint cmdReadOut_records (e : Execd) (w : World) (records : list (list byte))
  : outcome (Execd * World) :=
  match records with
  | [] => Done (e, w)
  | r :: rs =>
      match cmdReadOut_record e w r with
      | Done (e', w') => cmdReadOut_records e' w' rs
      | Panic => Panic
      | OutOfFuel => OutOfFuel
      end
  end.

(** The calls one iteration makes for a record on which the parser returned
    [metrics] and [perr], [once] being the state of the once-flag before. *)
Definition record_events (once : bool) (data : list byte) (metrics : list Metric)
  (perr : option error) : list Event :=
  [Parse_call data] ++
  match perr with
  | Some err => [AddError (Wrap "parse error: " err)]
  | None => []
  end ++
  (if (length metrics =? 0) && negb once then [Log Level_Debug NoMetricsCreatedMsg] else []) ++
  map AddMetric metrics.

(** The end of the data of a reader: the script is over or its next event
    is an error. *)
Definition is_tail (tail : io_Reader) : Prop :=
  match tail with
  | Data _ :: _ => False
  | _ => True
  end.

Definition tail_err (tail : io_Reader) : error :=
  match tail with
  | Fail e :: _ => e
  | _ => io_EOF
  end.

Definition tail_rest (tail : io_Reader) : io_Reader :=
  match tail with
  | _ :: t => t
  | [] => []
  end.

(** The zero-metrics debug notice. *)
Definition is_notice (ev : Event) : bool :=
  match ev with
  | Log Level_Debug msg => String.eqb msg NoMetricsCreatedMsg
  | _ => false
  end.

Definition notices (evs : list Event) : nat := length (filter is_notice evs).

(** ** Several instances in one process

    Every instance runs its own [cmdReadOut] loop on its own reader and
    parser; they share the package-level [once] and the log sink.  The only
    shared state an iteration touches is [once], through [once.Do], which
    [sync.Once] makes atomic; so an execution of the process is an
    interleaving of whole iterations.  A schedule names, step by step, the
    instance that runs its next iteration (and the fuel of that step). *)

Definition Instance : Type := option (Execd * bufio_Reader).   (* None: loop has ended *)

Definition cmdReadOut_iter (fuel : nat) (e : Execd) (rdr : bufio_Reader) (w : World)
  : outcome (Instance * World) :=
  match ReadBytes fuel rdr NL with
  | Done (rdr', _, Some err) =>
      if errors_Is err io_EOF || errors_Is err os_ErrClosed then Done (None, w)
      else Done (Some (e, rdr'), emit w (AddError (Wrap "error reading stdout: " err)))
  | Done (rdr', data, None) =>
      match cmdReadOut_record e w data with
      | Done (e', w') => Done (Some (e', rdr'), w')
      | Panic => Panic
      | OutOfFuel => OutOfFuel
      end
  | Panic => Panic
  | OutOfFuel => OutOfFuel
  end.

Fixpoint set_nth {A : Type} (i : nat) (x : A) (l : list A) : list A :=
  match l, i with
  | [], _ => []
  | _ :: l', 0 => x :: l'
  | y :: l', S i' => y :: set_nth i' x l'
  end.

Definition process_step (step : nat * nat) (st : list Instance * World)
  : list Instance * World :=
  let '(i, fuel) := step in
  let '(insts, w) := st in
  match nth i insts None with
  | None => st
  | Some (e, rdr) =>
      match cmdReadOut_iter fuel e rdr w with
      | Done (inst', w') => (set_nth i inst' insts, w')
      | Panic => (set_nth i None insts, w)
      | OutOfFuel => st
      end
  end.

Definition process_run (schedule : list (nat * nat)) (st : list Instance * World)
  : list Instance * World :=
  fold_left (fun st step => process_step step st) schedule st.

(** ** The decoder seen from outside: the results of successive [Next] calls *)

Fixpoint yields (d : Decoder) (rs : list (Metric + error)) (d_end : Decoder) : Prop :=
  match rs with
  | [] => d = d_end
  | r :: rs' => exists d', Next d = (d', r) /\ yields d' rs' d_end
  end.

(** A result after which the streaming loop goes on. *)
Definition continuing (r : Metric + error) : Prop :=
  match r with
  | inl _ => True
  | inr err => errors_Is err influx_EOF = false /\ errors_As_ParseError err <> None
  end.

Definition stream_event (r : Metric + error) : Event :=
  match r with
  | inl m => AddMetric m
  | inr err => match errors_As_ParseError err with
               | Some parseErr => AddError parseErr
               | None => AddError err
               end
  end.

(** ** The hosting agent

    Modelled from the spec: the agent that owns the plugin is not part of
    this package.  It calls [Init] and, the configuration error being fatal
    and surfaced before any process is spawned, goes on to [Start] only when
    [Init] returned no error. *)
Definition host_launch (e : Execd) (w : World) : Execd * World * option error :=
  match Init e with
  | Some err => (e, w, Some err)
  | None => Start e w
  end.

Definition spawned (evs : list Event) : Prop :=
  exists command, In (StartProcess command) evs.

(** ** The stderr stream as lines *)

(** A line [bufio.Scanner] can hold: shorter than [MaxScanTokenSize]. *)
Definition short_line (line : list byte) : Prop :=
  no_NL line /\ length line < MaxScanTokenSize.

(** The log calls for the lines of a stream: the terminated lines, then
    the unterminated rest if it is not empty; a carriage return before the
    line end is not part of the line. *)
Definition stderr_events (lines : list (list byte)) (last : list byte) : list Event :=
  map (fun l => cmdReadErr_line (string_of_list_byte (dropCR l)))
      (lines ++ match last with [] => [] | _ => [last] end).

(** What is reported for the error the scanner stopped on. *)
Definition scan_error_events (e : error) : list Event :=
  if error_eqb e io_EOF then []
  else [AddError (Wrap "error reading stderr: " e)].

(** ** The life of an instance after [SetParser]

    The calls the agent and the supervisor make on a configured instance;
    a call that panics or runs out of fuel leaves the state as it was. *)

Inductive Call : Type :=
| call_Init
| call_Start
| call_Stop
| call_cmdReadOut (fuel : nat) (out : io_Reader)
| call_cmdReadOutStream (fuel : nat) (out : io_Reader)
| call_cmdReadErr (fuel : nat) (out : io_Reader).

Definition apply_call (st : Execd * World) (c : Call) : Execd * World :=
  let '(e, w) := st in
  match c with
  | call_Init => (e, w)
  | call_Start => fst (Start e w)
  | call_Stop => match Stop e with Done e' => (e', w) | _ => (e, w) end
  | call_cmdReadOut fuel out =>
      match cmdReadOut fuel e out w with Done st' => st' | _ => (e, w) end
  | call_cmdReadOutStream fuel out =>
      match cmdReadOutStream fuel out w with Done (_, w') => (e, w') | _ => (e, w) end
  | call_cmdReadErr fuel out =>
      match cmdReadErr fuel out w with Done w' => (e, w') | _ => (e, w) end
  end.

(** ** Further vocabulary *)

(** The errors the batch demultiplexer reports for the records the parser
    fails on, in order. *)
Fixpoint parser_errors (p : parser_t) (records : list (list byte)) : list error :=
  match records with
  | [] => []
  | r :: rs =>
      let '(p', (_, perr)) := Parse p r in
      match perr with
      | Some err => [Wrap "parse error: " err]
      | None => []
      end ++ parser_errors p' rs
  end.

(** Whether the parser returns no metric for one of the records. *)
Fixpoint has_zero_metrics (p : parser_t) (records : list (list byte)) : bool :=
  match records with
  | [] => false
  | r :: rs =>
      let '(p', (ms, _)) := Parse p r in
      (length ms =? 0) || has_zero_metrics p' rs
  end.

(** Calls on the accumulator, calls on the logger. *)
Definition is_sink_event (ev : Event) : Prop :=
  match ev with
  | AddMetric _ | AddError _ => True
  | _ => False
  end.

Definition is_log_event (ev : Event) : Prop :=
  match ev with
  | Log _ _ => True
  | _ => False
  end.

(** A string with a space in it. *)
Definition has_space (s : string) : Prop :=
  exists a b, s = (a ++ String " " b)%string.

(** A line that begins with one of the five level prefixes. *)
Definition level_prefixed (msg : string) : bool :=
  strings_HasPrefix msg "E! " || strings_HasPrefix msg "W! " ||
  strings_HasPrefix msg "I! " || strings_HasPrefix msg "D! " ||
  strings_HasPrefix msg "T! ".

(** Printable ASCII other than the double quote and the backslash. *)
Definition plain_ascii (c : ascii) : bool :=
  let n := nat_of_ascii c in
  (32 <=? n) && (n <=? 126) && negb (n =? 34) && negb (n =? 92).

Fixpoint plain_string (s : string) : bool :=
  match s with
  | EmptyString => true
  | String c s' => plain_ascii c && plain_string s'
  end.

(** The configuration of an instance: the fields read from the file. *)
Definition config_of (e : Execd)
  : list string * list string * Z * string * Z * bool :=
  (Command e, Environment e, BufferSize e, Signal e, RestartDelay e, StopOnError e).

(** * Properties *)

Unset Implicit Arguments.

(** ** Lists of bytes *)

Lemma IndexByte_None (l : list byte) (c : byte) :
  IndexByte l c = None <-> ~ In c l.
Proof.
  induction l as [|x l IH]; simpl.
  - split; [intros _ []|reflexivity].
  - destruct (Byte.eqb x c) eqn:E.
    + apply Byte.byte_dec_bl in E. split; [discriminate|]. intros H; exfalso; auto.
    + apply Byte.eqb_false in E. destruct (IndexByte l c).
      * split; [discriminate|]. intros H. exfalso. apply H. right.
        destruct (in_dec Byte.byte_eq_dec c l) as [Hi|Hn]; [exact Hi|].
        apply IH in Hn. discriminate.
      * split; [|reflexivity]. intros _ [H|H]; [auto|]. apply IH in H; auto.
Qed.

Lemma IndexByte_first (l r : list byte) (c : byte) :
  ~ In c l -> IndexByte (l ++ c :: r) c = Some (length l).
Proof.
  induction l as [|x l IH]; simpl; intros H.
  - rewrite (Byte.byte_dec_lb eq_refl). reflexivity.
  - destruct (Byte.eqb x c) eqn:E.
    + apply Byte.byte_dec_bl in E. exfalso; auto.
    + rewrite IH by auto. reflexivity.
Qed.

Lemma IndexByte_skip (s : nat) (l : list byte) (c : byte) :
  ~ In c (firstn s l) ->
  IndexByte (skipn s l) c =
  match IndexByte l c with Some i => Some (i - s) | None => None end /\
  (forall i, IndexByte l c = Some i -> s <= i).
Proof.
  revert l. induction s as [|s IH]; intros l H.
  - simpl. split; [|intros; lia]. destruct (IndexByte l c); [f_equal; lia|reflexivity].
  - destruct l as [|x l]; simpl.
    + split; [reflexivity|discriminate].
    + simpl in H. destruct (Byte.eqb x c) eqn:E.
      * apply Byte.byte_dec_bl in E. exfalso; auto.
      * destruct (IH l) as [H1 H2]; [auto|]. rewrite H1.
        destruct (IndexByte l c) as [i|].
        -- split; [reflexivity|]. intros j Hj. inversion Hj. specialize (H2 i eq_refl). lia.
        -- split; [reflexivity|discriminate].
Qed.

(** Where a sequence cut in two meets the first delimiter of the whole. *)
Lemma app_split_first (l1 x line rest : list byte) (c : byte) :
  l1 ++ x = line ++ c :: rest -> ~ In c line ->
  (~ In c l1 /\ exists line', line = l1 ++ line' /\ x = line' ++ c :: rest) \/
  (exists r1, l1 = line ++ c :: r1 /\ rest = r1 ++ x).
Proof.
  revert line. induction l1 as [|a l1 IH]; intros line H Hn.
  - left. split; [intros []|]. exists line. auto.
  - destruct line as [|b line]; simpl in H; inversion H; subst.
    + right. exists l1. auto.
    + destruct (IH line H2) as [[Hc [line' [E1 E2]]]|[r1 [E1 E2]]].
      * intros Hin; apply Hn; right; exact Hin.
      * left. split.
        -- intros [Hin|Hin]; [apply Hn; left; exact Hin|auto].
        -- exists line'. subst. auto.
      * right. exists r1. subst. auto.
Qed.

Lemma app_no_delim (l1 x whole : list byte) (c : byte) :
  l1 ++ x = whole -> ~ In c whole -> ~ In c l1 /\ ~ In c x.
Proof.
  intros <- H. split; intros Hin; apply H; apply in_or_app; auto.
Qed.

Lemma error_eqb_refl (e : error) : error_eqb e e = true.
Proof.
  induction e; simpl; auto using String.eqb_refl.
  rewrite String.eqb_refl. exact IHe.
Qed.

Lemma error_eqb_eq (a b : error) : error_eqb a b = true <-> a = b.
Proof.
  split; [|intros ->; apply error_eqb_refl].
  revert b. induction a; destruct b; simpl; try discriminate; try reflexivity.
  - intros H. apply String.eqb_eq in H. congruence.
  - intros H. apply String.eqb_eq in H. congruence.
  - intros H. apply andb_true_iff in H. destruct H as [H1 H2].
    apply String.eqb_eq in H1. apply IHa in H2. congruence.
Qed.


Lemma firstn_record (l r : list byte) (c : byte) :
  firstn (length l + 1) (l ++ c :: r) = l ++ [c].
Proof.
  rewrite firstn_app_2. reflexivity.
Qed.

Lemma skipn_record (l r : list byte) (c : byte) :
  skipn (length l + 1) (l ++ c :: r) = r.
Proof.
  rewrite skipn_app, skipn_all2 by lia.
  replace (length l + 1 - length l) with 1 by lia. reflexivity.
Qed.

(** ** io.Reader: reads from a script that starts with data *)

Lemma Read_data (chunks : list (list byte)) (tail : io_Reader) (n : nat) :
  chunked chunks -> chunks <> [] -> 0 < n ->
  exists p chunks',
    Read (map Data chunks ++ tail) n = (p, None, map Data chunks' ++ tail) /\
    p <> [] /\ length p <= n /\ p ++ concat chunks' = concat chunks /\
    chunked chunks'.
Proof.
  intros Hc Hne Hn. destruct chunks as [|c cs]; [congruence|].
  inversion Hc as [|? ? Hc1 Hc2]; subst. simpl.
  destruct (length c <=? n) eqn:E.
  - apply Nat.leb_le in E. exists c, cs. auto.
  - apply Nat.leb_gt in E. exists (firstn n c), (skipn n c :: cs).
    repeat split.
    + intros H. apply (f_equal (@length byte)) in H.
      rewrite length_firstn in H. simpl in H. lia.
    + rewrite length_firstn. lia.
    + simpl. rewrite app_assoc, firstn_skipn. reflexivity.
    + constructor; [|exact Hc2]. intros H. apply (f_equal (@length byte)) in H.
      rewrite length_skipn in H. simpl in H. lia.
Qed.

Lemma Read_tail (tail : io_Reader) (n : nat) :
  is_tail tail -> Read tail n = ([], Some (tail_err tail), tail_rest tail).
Proof.
  destruct tail as [|[c|e] t]; simpl; intros H; [reflexivity|contradiction|reflexivity].
Qed.

Lemma concat_nonempty (chunks : list (list byte)) :
  concat chunks <> [] -> chunks <> [].
Proof.
  intros H E. subst. apply H. reflexivity.
Qed.

(** ** bufio.Reader *)

Lemma fill_loop_S (i : nat) (b : bufio_Reader) :
  fill_loop (S i) b =
  let '(p, e, r') := Read (rd b) (size b - length (buf b)) in
  let b' := {| buf := buf b ++ p; size := size b; rd := r'; err := err b |} in
  match e with
  | Some _ => {| buf := buf b'; size := size b'; rd := rd b'; err := e |}
  | None => if 0 <? length p then b' else fill_loop i b'
  end.
Proof. reflexivity. Qed.

Lemma fill_data (b0 : list byte) (sz : nat) (chunks : list (list byte)) (tail : io_Reader) :
  chunked chunks -> chunks <> [] -> length b0 < sz ->
  exists p chunks',
    fill (mkReader b0 sz (map Data chunks ++ tail) None)
    = mkReader (b0 ++ p) sz (map Data chunks' ++ tail) None /\
    p <> [] /\ length (b0 ++ p) <= sz /\ p ++ concat chunks' = concat chunks /\
    chunked chunks'.
Proof.
  intros Hc Hne Hlt.
  destruct (Read_data chunks tail (sz - length b0) Hc Hne) as (p & chunks' & HR & Hp & Hl & Hcat & Hc');
    [lia|].
  exists p, chunks'. unfold fill, maxConsecutiveEmptyReads. rewrite fill_loop_S. cbn [buf size rd err].
  rewrite HR. cbn [buf size rd err].
  destruct p as [|x p]; [congruence|]. cbn [length Nat.ltb Nat.leb].
  repeat split; auto. rewrite length_app. lia.
Qed.

Lemma fill_tail (b0 : list byte) (sz : nat) (tail : io_Reader) :
  is_tail tail ->
  fill (mkReader b0 sz tail None) = mkReader b0 sz (tail_rest tail) (Some (tail_err tail)).
Proof.
  intros Ht. unfold fill, maxConsecutiveEmptyReads. rewrite fill_loop_S. cbn [buf size rd err].
  rewrite (Read_tail tail _ Ht). cbn [buf size rd err]. rewrite app_nil_r. reflexivity.
Qed.

Lemma ReadSlice_loop_S (fuel s : nat) (b : bufio_Reader) (delim : byte) :
  ReadSlice_loop (S fuel) s b delim =
  match IndexByte (skipn s (buf b)) delim with
  | Some i =>
      Done ({| buf := skipn (i + s + 1) (buf b); size := size b; rd := rd b; err := err b |},
            firstn (i + s + 1) (buf b), None)
  | None =>
      match err b with
      | Some e =>
          Done ({| buf := []; size := size b; rd := rd b; err := None |}, buf b, Some e)
      | None =>
          if size b <=? length (buf b) then
            Done ({| buf := []; size := size b; rd := rd b; err := None |},
                  buf b, Some bufio_ErrBufferFull)
          else ReadSlice_loop fuel (length (buf b)) (fill b) delim
      end
  end.
Proof. reflexivity. Qed.

Lemma ReadSlice_loop_mono (fuel : nat) :
  forall fuel' s b delim r,
    ReadSlice_loop fuel s b delim = Done r -> fuel <= fuel' ->
    ReadSlice_loop fuel' s b delim = Done r.
Proof.
  induction fuel as [|fuel IH]; intros fuel' s b delim r H Hle; [discriminate|].
  destruct fuel' as [|fuel']; [lia|].
  rewrite ReadSlice_loop_S in *.
  destruct (IndexByte (skipn s (buf b)) delim); [exact H|].
  destruct (err b); [exact H|].
  destruct (size b <=? length (buf b)); [exact H|].
  apply IH; [exact H|lia].
Qed.

Lemma collectFragments_mono (fuel : nat) :
  forall fuel' b delim full r,
    collectFragments fuel b delim full = Done r -> fuel <= fuel' ->
    collectFragments fuel' b delim full = Done r.
Proof.
  induction fuel as [|fuel IH]; intros fuel' b delim full r H Hle; [discriminate|].
  destruct fuel' as [|fuel']; [lia|].
  cbn [collectFragments] in *. unfold ReadSlice in *.
  destruct (ReadSlice_loop fuel 0 b delim) as [[[b' frag] e]| |] eqn:E; try discriminate.
  rewrite (ReadSlice_loop_mono fuel fuel' 0 b delim _ E) by lia.
  destruct e as [e|]; [|exact H].
  destruct (error_eqb e bufio_ErrBufferFull); [|exact H].
  apply IH; [exact H|lia].
Qed.

Lemma ReadBytes_mono (fuel fuel' : nat) b delim r :
  ReadBytes fuel b delim = Done r -> fuel <= fuel' -> ReadBytes fuel' b delim = Done r.
Proof.
  unfold ReadBytes. intros H Hle.
  destruct (collectFragments fuel b delim []) as [[[[b' full] frag] e]| |] eqn:E; try discriminate.
  rewrite (collectFragments_mono fuel fuel' b delim [] _ E Hle). exact H.
Qed.


Lemma IndexByte_skipn_None (s : nat) (l : list byte) (c : byte) :
  ~ In c l -> IndexByte (skipn s l) c = None.
Proof.
  intros H. apply IndexByte_None. intros Hin. apply H.
  rewrite <- (firstn_skipn s l). apply in_or_app. right. exact Hin.
Qed.

(** The four ways an iteration of [ReadSlice] goes. *)
Lemma ReadSlice_loop_found (fuel s sz : nat) (r : io_Reader) (line r1 : list byte) :
  ~ In NL (firstn s (line ++ NL :: r1)) -> no_NL line ->
  ReadSlice_loop (S fuel) s (mkReader (line ++ NL :: r1) sz r None) NL
  = Done (mkReader r1 sz r None, line ++ [NL], None).
Proof.
  intros Hs Hl. rewrite ReadSlice_loop_S. cbn [buf size rd err].
  destruct (IndexByte_skip s (line ++ NL :: r1) NL Hs) as [K1 K2].
  rewrite K1, (IndexByte_first line r1 NL Hl).
  specialize (K2 _ (IndexByte_first line r1 NL Hl)).
  replace (length line - s + s + 1) with (length line + 1) by lia.
  rewrite firstn_record, skipn_record. reflexivity.
Qed.

Lemma ReadSlice_loop_err (fuel s sz : nat) (r : io_Reader) (b0 : list byte) (e : error) :
  ~ In NL b0 ->
  ReadSlice_loop (S fuel) s (mkReader b0 sz r (Some e)) NL
  = Done (mkReader [] sz r None, b0, Some e).
Proof.
  intros Hn. rewrite ReadSlice_loop_S. cbn [buf size rd err].
  rewrite (IndexByte_skipn_None s b0 NL Hn). reflexivity.
Qed.

Lemma ReadSlice_loop_full (fuel s sz : nat) (r : io_Reader) (b0 : list byte) :
  ~ In NL b0 -> sz <= length b0 ->
  ReadSlice_loop (S fuel) s (mkReader b0 sz r None) NL
  = Done (mkReader [] sz r None, b0, Some bufio_ErrBufferFull).
Proof.
  intros Hn Hf. rewrite ReadSlice_loop_S. cbn [buf size rd err].
  rewrite (IndexByte_skipn_None s b0 NL Hn).
  apply Nat.leb_le in Hf. rewrite Hf. reflexivity.
Qed.

Lemma ReadSlice_loop_fill (fuel s sz : nat) (r : io_Reader) (b0 : list byte) :
  ~ In NL b0 -> length b0 < sz ->
  ReadSlice_loop (S fuel) s (mkReader b0 sz r None) NL
  = ReadSlice_loop fuel (length b0) (fill (mkReader b0 sz r None)) NL.
Proof.
  intros Hn Hf. rewrite ReadSlice_loop_S. cbn [buf size rd err].
  rewrite (IndexByte_skipn_None s b0 NL Hn).
  apply Nat.leb_gt in Hf. rewrite Hf. reflexivity.
Qed.

Lemma firstn_length_app (l p : list byte) : firstn (length l) (l ++ p) = l.
Proof.
  rewrite firstn_app, firstn_all, Nat.sub_diag. simpl. apply app_nil_r.
Qed.

Lemma nonempty_length (l : list byte) : l <> [] -> 0 < length l.
Proof.
  destruct l; [congruence|simpl; lia].
Qed.

Section ReaderRuns.

Variable sz : nat.
Variable tail : io_Reader.
Hypothesis sz_pos : 0 < sz.

Let reader (b0 : list byte) (chunks : list (list byte)) : bufio_Reader :=
  mkReader b0 sz (map Data chunks ++ tail) None.

(** [ReadSlice] when the delimiter is ahead: it returns the line, or a full
    buffer that is a front part of the line. *)
Lemma ReadSlice_line (line rest : list byte) (n : nat) :
  forall chunks b0 s,
    length (concat chunks) <= n -> chunked chunks -> length b0 <= sz ->
    ~ In NL (firstn s b0) -> no_NL line ->
    b0 ++ concat chunks = line ++ NL :: rest ->
    exists fuel chunks' b1,
      chunked chunks' /\ length b1 <= sz /\
      ((ReadSlice_loop fuel s (reader b0 chunks) NL
        = Done (reader b1 chunks', line ++ [NL], None) /\
        b1 ++ concat chunks' = rest) \/
       (exists pre line',
          line = pre ++ line' /\ pre <> [] /\ b1 = [] /\
          ReadSlice_loop fuel s (reader b0 chunks) NL
          = Done (reader [] chunks', pre, Some bufio_ErrBufferFull) /\
          concat chunks' = line' ++ NL :: rest)).
Proof.
  induction n as [|n IH]; intros chunks b0 s Hn Hc Hb Hs Hl Heq.
  all: destruct (app_split_first _ _ _ _ _ Heq Hl) as [[Hnb (line' & E1 & E2)]|(r1 & E1 & E2)].
  - exfalso. rewrite E2 in Hn. rewrite length_app in Hn. simpl in Hn. lia.
  - exists 1, chunks, r1. split; [exact Hc|]. split.
    { subst b0. rewrite length_app in Hb. simpl in Hb. lia. }
    left. subst b0. split; [|auto]. apply ReadSlice_loop_found; assumption.
  - destruct (Nat.le_gt_cases sz (length b0)) as [Efull|Efull].
    + exists 1, chunks, []. split; [exact Hc|]. split; [simpl; lia|]. right.
      exists b0, line'. split; [exact E1|]. split.
      { intros ->. simpl in Efull. lia. }
      split; [reflexivity|]. split; [|exact E2].
      apply ReadSlice_loop_full; assumption.
    + assert (Hne : chunks <> []).
      { apply concat_nonempty. rewrite E2. destruct line'; discriminate. }
      destruct (fill_data b0 sz chunks tail Hc Hne Efull)
        as (p & chunks' & Hf & Hp & Hlen & Hcat & Hc').
      apply nonempty_length in Hp.
      destruct (IH chunks' (b0 ++ p) (length b0)) as (fuel & chunks2 & b1 & G1 & G2 & G3).
      * rewrite <- Hcat, length_app in Hn. lia.
      * exact Hc'.
      * exact Hlen.
      * rewrite firstn_length_app. exact Hnb.
      * exact Hl.
      * rewrite <- app_assoc, Hcat. exact Heq.
      * exists (S fuel), chunks2, b1. split; [exact G1|]. split; [exact G2|].
        unfold reader in *. rewrite (ReadSlice_loop_fill _ _ _ _ _ Hnb Efull), Hf. exact G3.
  - exists 1, chunks, r1. split; [exact Hc|]. split.
    { subst b0. rewrite length_app in Hb. simpl in Hb. lia. }
    left. subst b0. split; [|auto]. apply ReadSlice_loop_found; assumption.
Qed.

(** [ReadSlice] when no delimiter is left before the end of the data. *)
Lemma ReadSlice_tail (last : list byte) (n : nat) :
  forall chunks b0 s,
    length (concat chunks) <= n -> chunked chunks -> length b0 <= sz ->
    is_tail tail -> no_NL last ->
    b0 ++ concat chunks = last ->
    exists fuel,
      ReadSlice_loop fuel s (reader b0 chunks) NL
      = Done (mkReader [] sz (tail_rest tail) None, last, Some (tail_err tail)) \/
      (exists pre last' chunks',
         last = pre ++ last' /\ pre <> [] /\ chunked chunks' /\
         ReadSlice_loop fuel s (reader b0 chunks) NL
         = Done (reader [] chunks', pre, Some bufio_ErrBufferFull) /\
         concat chunks' = last').
Proof.
  assert (Hfull : forall chunks b0 s last,
    chunked chunks -> ~ In NL b0 -> b0 ++ concat chunks = last -> sz <= length b0 ->
    exists pre last' chunks',
         last = pre ++ last' /\ pre <> [] /\ chunked chunks' /\
         ReadSlice_loop 1 s (reader b0 chunks) NL
         = Done (reader [] chunks', pre, Some bufio_ErrBufferFull) /\
         concat chunks' = last').
  { intros chunks b0 s last0 Hc Hnb Heq Efull. exists b0, (concat chunks), chunks.
    split; [auto|]. split; [intros ->; simpl in Efull; lia|]. split; [exact Hc|].
    split; [|reflexivity]. apply ReadSlice_loop_full; assumption. }
  induction n as [|n IH]; intros chunks b0 s Hn Hc Hb Ht Hl Heq.
  all: destruct (app_no_delim _ _ _ _ Heq Hl) as [Hnb Hnc].
  all: destruct (Nat.le_gt_cases sz (length b0)) as [Efull|Efull];
    [exists 1; right; apply Hfull; assumption|].
  all: destruct chunks as [|c cs].
  - exists 2. left. unfold reader. cbn [map app].
    rewrite (ReadSlice_loop_fill _ _ _ _ _ Hnb Efull), (fill_tail _ _ _ Ht).
    rewrite (ReadSlice_loop_err _ _ _ _ _ _ Hnb).
    simpl in Heq. rewrite app_nil_r in Heq. subst. reflexivity.
  - exfalso. inversion Hc as [|? ? Hc1 Hc2]; subst. simpl in Hn. rewrite length_app in Hn.
    apply nonempty_length in Hc1. lia.
  - exists 2. left. unfold reader. cbn [map app].
    rewrite (ReadSlice_loop_fill _ _ _ _ _ Hnb Efull), (fill_tail _ _ _ Ht).
    rewrite (ReadSlice_loop_err _ _ _ _ _ _ Hnb).
    simpl in Heq. rewrite app_nil_r in Heq. subst. reflexivity.
  - destruct (fill_data b0 sz (c :: cs) tail Hc ltac:(discriminate) Efull)
      as (p & chunks' & Hf & Hp & Hlen & Hcat & Hc').
    apply nonempty_length in Hp.
    destruct (IH chunks' (b0 ++ p) (length b0)) as (fuel & G); auto.
    + rewrite <- Hcat, length_app in Hn. lia.
    + rewrite <- app_assoc, Hcat. exact Heq.
    + exists (S fuel). unfold reader in *.
      rewrite (ReadSlice_loop_fill _ _ _ _ _ Hnb Efull), Hf. exact G.
Qed.



(** [ReadBytes] returns the next record whole, whatever the chunking and
    the buffer size. *)
Lemma collectFragments_line (rest : list byte) (n : nat) :
  forall line chunks b0 full,
    length line <= n -> chunked chunks -> length b0 <= sz -> no_NL line ->
    b0 ++ concat chunks = line ++ NL :: rest ->
    exists fuel chunks' b1 pres frag,
      collectFragments fuel (reader b0 chunks) NL full
      = Done (reader b1 chunks', full ++ pres, frag, None) /\
      concat pres ++ frag = line ++ [NL] /\
      chunked chunks' /\ length b1 <= sz /\ b1 ++ concat chunks' = rest.
Proof.
  induction n as [|n IH]; intros line chunks b0 full Hn Hc Hb Hl Heq.
  all: destruct (ReadSlice_line line rest _ chunks b0 0 (le_n _) Hc Hb ltac:(simpl; auto) Hl Heq)
         as (fuel & chunks' & b1 & G1 & G2 & [[G3 G4]|(pre & line' & E1 & E2 & E3 & G3 & G4)]).
  1,3: exists (S fuel), chunks', b1, [], (line ++ [NL]);
       cbn [collectFragments]; unfold ReadSlice; rewrite G3, app_nil_r; auto.
  - exfalso. apply nonempty_length in E2. subst line. rewrite length_app in Hn. lia.
  - subst b1. apply nonempty_length in E2.
    destruct (IH line' chunks' [] (full ++ [pre]))
      as (fuel2 & chunks2 & b2 & pres & frag & K1 & K2 & K3 & K4 & K5).
    + subst line. rewrite length_app in Hn. lia.
    + exact G1.
    + simpl; lia.
    + intros Hin. apply Hl. subst line. apply in_or_app. right. exact Hin.
    + exact G4.
    + exists (S (Nat.max fuel fuel2)), chunks2, b2, (pre :: pres), frag.
      cbn [collectFragments]. unfold ReadSlice.
      rewrite (ReadSlice_loop_mono fuel _ 0 _ NL _ G3 (Nat.le_max_l fuel fuel2)).
      cbn [error_eqb].
      rewrite (collectFragments_mono fuel2 _ _ NL _ _ K1 (Nat.le_max_r fuel fuel2)).
      rewrite <- app_assoc. simpl. rewrite <- app_assoc, K2. subst line.
      rewrite <- app_assoc. auto.
Qed.

Lemma ReadBytes_line (line rest : list byte) (chunks : list (list byte)) (b0 : list byte) :
  chunked chunks -> length b0 <= sz -> no_NL line ->
  b0 ++ concat chunks = line ++ NL :: rest ->
  exists fuel chunks' b1,
    ReadBytes fuel (reader b0 chunks) NL = Done (reader b1 chunks', record line, None) /\
    chunked chunks' /\ length b1 <= sz /\ b1 ++ concat chunks' = rest.
Proof.
  intros Hc Hb Hl Heq.
  destruct (collectFragments_line rest _ line chunks b0 [] (le_n _) Hc Hb Hl Heq)
    as (fuel & chunks' & b1 & pres & frag & K1 & K2 & K3 & K4 & K5).
  exists fuel, chunks', b1. unfold ReadBytes. rewrite K1. simpl. rewrite K2. auto.
Qed.

(** [ReadBytes] at the end of the data: what is left (an unterminated line,
    possibly empty) is returned together with the error of the reader. *)
Lemma collectFragments_tail (n : nat) :
  forall last chunks b0 full,
    length last <= n -> chunked chunks -> length b0 <= sz ->
    is_tail tail -> error_eqb (tail_err tail) bufio_ErrBufferFull = false ->
    no_NL last -> b0 ++ concat chunks = last ->
    exists fuel pres frag,
      collectFragments fuel (reader b0 chunks) NL full
      = Done (mkReader [] sz (tail_rest tail) None, full ++ pres, frag, Some (tail_err tail)) /\
      concat pres ++ frag = last.
Proof.
  induction n as [|n IH]; intros last chunks b0 full Hn Hc Hb Ht He Hl Heq.
  all: destruct (ReadSlice_tail last _ chunks b0 0 (le_n _) Hc Hb Ht Hl Heq)
         as (fuel & [G|(pre & last' & chunks' & E1 & E2 & G1 & G2 & G3)]).
  1,3: exists (S fuel), [], last; cbn [collectFragments]; unfold ReadSlice;
       rewrite G, He, app_nil_r; auto.
  - exfalso. apply nonempty_length in E2. rewrite E1, length_app in Hn. lia.
  - apply nonempty_length in E2.
    destruct (IH last' chunks' [] (full ++ [pre])) as (fuel2 & pres & frag & K1 & K2); auto.
    + rewrite E1, length_app in Hn. lia.
    + simpl; lia.
    + intros Hin. apply Hl. rewrite E1. apply in_or_app. right. exact Hin.
    + exists (S (Nat.max fuel fuel2)), (pre :: pres), frag.
      cbn [collectFragments]. unfold ReadSlice.
      rewrite (ReadSlice_loop_mono fuel _ 0 _ NL _ G2 (Nat.le_max_l fuel fuel2)).
      cbn [error_eqb].
      rewrite (collectFragments_mono fuel2 _ _ NL _ _ K1 (Nat.le_max_r fuel fuel2)).
      rewrite <- app_assoc. simpl. rewrite <- app_assoc, K2, E1. auto.
Qed.

Lemma ReadBytes_tail (last : list byte) (chunks : list (list byte)) (b0 : list byte) :
  chunked chunks -> length b0 <= sz -> is_tail tail ->
  error_eqb (tail_err tail) bufio_ErrBufferFull = false ->
  no_NL last -> b0 ++ concat chunks = last ->
  exists fuel,
    ReadBytes fuel (reader b0 chunks) NL
    = Done (mkReader [] sz (tail_rest tail) None, last, Some (tail_err tail)).
Proof.
  intros Hc Hb Ht He Hl Heq.
  destruct (collectFragments_tail _ last chunks b0 [] (le_n _) Hc Hb Ht He Hl Heq)
    as (fuel & pres & frag & K1 & K2).
  exists fuel. unfold ReadBytes. rewrite K1. simpl. rewrite K2. reflexivity.
Qed.

End ReaderRuns.


(** ** Events *)

Lemma metrics_of_app (a b : list Event) : metrics_of (a ++ b) = metrics_of a ++ metrics_of b.
Proof.
  induction a as [|[| | | |] a IH]; simpl; rewrite ?IH; reflexivity.
Qed.

Lemma parse_calls_of_app (a b : list Event) :
  parse_calls_of (a ++ b) = parse_calls_of a ++ parse_calls_of b.
Proof.
  induction a as [|[| | | |] a IH]; simpl; rewrite ?IH; reflexivity.
Qed.

Lemma errors_of_app (a b : list Event) : errors_of (a ++ b) = errors_of a ++ errors_of b.
Proof.
  induction a as [|[| | | |] a IH]; simpl; rewrite ?IH; reflexivity.
Qed.

Lemma metrics_of_AddMetric (ms : list Metric) : metrics_of (map AddMetric ms) = ms.
Proof.
  induction ms as [|m ms IH]; simpl; rewrite ?IH; reflexivity.
Qed.

Lemma parse_calls_of_AddMetric (ms : list Metric) : parse_calls_of (map AddMetric ms) = [].
Proof.
  induction ms as [|m ms IH]; simpl; auto.
Qed.

Lemma errors_of_AddMetric (ms : list Metric) : errors_of (map AddMetric ms) = [].
Proof.
  induction ms as [|m ms IH]; simpl; auto.
Qed.

Lemma notices_app (a b : list Event) : notices (a ++ b) = notices a + notices b.
Proof.
  unfold notices. rewrite filter_app, length_app. reflexivity.
Qed.

Lemma notices_AddMetric (ms : list Metric) : notices (map AddMetric ms) = 0.
Proof.
  unfold notices. induction ms as [|m ms IH]; simpl; auto.
Qed.

Lemma fold_emit_metrics (ms : list Metric) (w : World) :
  fold_left (fun w m => emit w (AddMetric m)) ms w = add_events w (map AddMetric ms).
Proof.
  revert w. induction ms as [|m ms IH]; intros w; simpl.
  - unfold add_events. rewrite app_nil_r. destruct w; reflexivity.
  - rewrite IH. unfold add_events, emit. simpl. rewrite <- app_assoc. reflexivity.
Qed.

(** ** One record in the batch demultiplexer *)

Lemma cmdReadOut_record_Done (e : Execd) (w : World) (data : list byte) (p : parser_t) :
  parser e = Some p ->
  cmdReadOut_record e w data
  = Done (set_parser e (Some (fst (Parse p data))),
          {| once_done := once_done w || (length (fst (snd (Parse p data))) =? 0);
             events := events w ++
                       record_events (once_done w) data
                         (fst (snd (Parse p data))) (snd (snd (Parse p data))) |}).
Proof.
  intros Hp. unfold cmdReadOut_record. rewrite Hp.
  destruct (Parse p data) as [p' [ms perr]]. cbn [fst snd].
  rewrite fold_emit_metrics. unfold record_events, add_events. f_equal. f_equal.
  destruct perr as [err0|]; destruct ms as [|m ms]; destruct w as [[|] evs];
    cbn -[app]; rewrite <- ?app_assoc; cbn; rewrite ?orb_false_r, ?app_nil_r;
    reflexivity.
Qed.

Lemma set_parser_twice (e : Execd) (p q : option parser_t) :
  set_parser (set_parser e p) q = set_parser e q.
Proof. reflexivity. Qed.

Lemma cmdReadOut_records_Done (recs : list (list byte)) :
  forall (e : Execd) (w : World) (p : parser_t),
    parser e = Some p ->
    exists evs o,
      cmdReadOut_records e w recs
      = Done (set_parser e (Some (parser_after p recs)),
              {| once_done := o; events := events w ++ evs |}) /\
      metrics_of evs = parser_metrics p recs /\
      parse_calls_of evs = recs /\
      (once_done w = true -> o = true).
Proof.
  induction recs as [|r recs IH]; intros e w p Hp.
  - exists [], (once_done w). simpl. rewrite app_nil_r.
    destruct e, w; simpl in *; subst; auto.
  - cbn [cmdReadOut_records]. rewrite (cmdReadOut_record_Done e w r p Hp).
    destruct (IH (set_parser e (Some (fst (Parse p r))))
                 {| once_done := once_done w || (length (fst (snd (Parse p r))) =? 0);
                    events := events w ++
                       record_events (once_done w) r
                         (fst (snd (Parse p r))) (snd (snd (Parse p r))) |}
                 (fst (Parse p r)) eq_refl)
      as (evs & o & H1 & H2 & H3 & H4).
    exists (record_events (once_done w) r (fst (snd (Parse p r))) (snd (snd (Parse p r))) ++ evs), o.
    rewrite H1. cbn [events once_done parser_after parser_metrics].
    rewrite set_parser_twice, <- app_assoc.
    split; [reflexivity|].
    rewrite metrics_of_app, parse_calls_of_app, H2, H3.
    destruct (Parse p r) as [p' [ms perr]]. cbn [fst snd].
    unfold record_events.
    rewrite !metrics_of_app, !parse_calls_of_app, metrics_of_AddMetric, parse_calls_of_AddMetric.
    split; [|split].
    + destruct perr; destruct ((length ms =? 0) && negb (once_done w)); reflexivity.
    + destruct perr; destruct ((length ms =? 0) && negb (once_done w)); reflexivity.
    + intros Hw. apply H4. rewrite Hw. reflexivity.
Qed.


(** ** Runs of the batch demultiplexer *)

Lemma cmdReadOut_loop_S (fuel : nat) (e : Execd) (rdr : bufio_Reader) (w : World) :
  cmdReadOut_loop (S fuel) e rdr w =
  match ReadBytes fuel rdr NL with
  | Done (rdr', _, Some err) =>
      if errors_Is err io_EOF || errors_Is err os_ErrClosed then Done (e, w)
      else cmdReadOut_loop fuel e rdr' (emit w (AddError (Wrap "error reading stdout: " err)))
  | Done (rdr', data, None) =>
      match cmdReadOut_record e w data with
      | Done (e', w') => cmdReadOut_loop fuel e' rdr' w'
      | Panic => Panic
      | OutOfFuel => OutOfFuel
      end
  | Panic => Panic
  | OutOfFuel => OutOfFuel
  end.
Proof. reflexivity. Qed.

Lemma concat_records_cons (line : list byte) (lines : list (list byte)) (rest : list byte) :
  concat (map record (line :: lines)) ++ rest
  = line ++ NL :: (concat (map record lines) ++ rest).
Proof.
  simpl. unfold record at 1. rewrite <- !app_assoc. reflexivity.
Qed.

Section BatchRuns.

Variable sz : nat.
Variable tail : io_Reader.
Hypothesis sz_pos : 0 < sz.

(** The loop works through the complete records ahead of it, one iteration
    each, whatever the chunking. *)
Lemma cmdReadOut_loop_records (rest : list byte) (lines : list (list byte)) :
  forall chunks b0 e w p,
    parser e = Some p -> Forall no_NL lines -> chunked chunks -> length b0 <= sz ->
    b0 ++ concat chunks = concat (map record lines) ++ rest ->
    exists F e' w' chunks' b1,
      cmdReadOut_records e w (map record lines) = Done (e', w') /\
      (forall fuel, F <= fuel ->
         cmdReadOut_loop fuel e (mkReader b0 sz (map Data chunks ++ tail) None) w
         = cmdReadOut_loop (fuel - length lines) e'
             (mkReader b1 sz (map Data chunks' ++ tail) None) w') /\
      chunked chunks' /\ length b1 <= sz /\ b1 ++ concat chunks' = rest.
Proof.
  induction lines as [|line lines IH]; intros chunks b0 e w p Hp Hl Hc Hb Heq.
  - exists 0, e, w, chunks, b0. simpl. repeat split; auto.
    intros fuel _. rewrite Nat.sub_0_r. reflexivity.
  - inversion Hl as [|? ? Hl1 Hl2]; subst.
    rewrite concat_records_cons in Heq.
    destruct (ReadBytes_line sz tail sz_pos line _ chunks b0 Hc Hb Hl1 Heq)
      as (f0 & chunks1 & b1 & R1 & R2 & R3 & R4).
    pose proof (cmdReadOut_record_Done e w (record line) p Hp) as Hrec.
    set (e1 := set_parser e (Some (fst (Parse p (record line))))) in *.
    set (w1 := {| once_done := once_done w || (length (fst (snd (Parse p (record line)))) =? 0);
                  events := events w ++
                    record_events (once_done w) (record line)
                      (fst (snd (Parse p (record line)))) (snd (snd (Parse p (record line)))) |}) in *.
    destruct (IH chunks1 b1 e1 w1 (fst (Parse p (record line))) eq_refl Hl2 R2 R3 R4)
      as (F1 & e' & w' & chunks' & b2 & K1 & K2 & K3 & K4 & K5).
    exists (S (Nat.max f0 F1)), e', w', chunks', b2.
    split; [|split; [|auto]].
    + cbn [map cmdReadOut_records]. rewrite Hrec. exact K1.
    + intros fuel Hf. destruct fuel as [|fuel]; [lia|].
      rewrite cmdReadOut_loop_S, (ReadBytes_mono f0 fuel _ NL _ R1) by lia.
      rewrite Hrec. rewrite K2 by lia. reflexivity.
Qed.

(** At the end of the data the unterminated rest is dropped; an end of
    stream ends the loop, another error is reported and the loop reads on. *)
Lemma cmdReadOut_loop_tail (last : list byte) (chunks : list (list byte)) (b0 : list byte)
  (e : Execd) (w : World) :
  chunked chunks -> length b0 <= sz -> is_tail tail ->
  error_eqb (tail_err tail) bufio_ErrBufferFull = false ->
  no_NL last -> b0 ++ concat chunks = last ->
  exists F,
    forall fuel, F <= fuel ->
      cmdReadOut_loop fuel e (mkReader b0 sz (map Data chunks ++ tail) None) w
      = if errors_Is (tail_err tail) io_EOF || errors_Is (tail_err tail) os_ErrClosed
        then Done (e, w)
        else cmdReadOut_loop (fuel - 1) e (mkReader [] sz (tail_rest tail) None)
               (emit w (AddError (Wrap "error reading stdout: " (tail_err tail)))).
Proof.
  intros Hc Hb Ht He Hl Heq.
  destruct (ReadBytes_tail sz tail sz_pos last chunks b0 Hc Hb Ht He Hl Heq) as (f0 & R).
  exists (S f0). intros fuel Hf. destruct fuel as [|fuel]; [lia|].
  rewrite cmdReadOut_loop_S, (ReadBytes_mono f0 fuel _ NL _ R) by lia.
  rewrite Nat.sub_succ, Nat.sub_0_r. reflexivity.
Qed.

(** A whole script: complete records, an unterminated rest, the end. *)
Lemma cmdReadOut_loop_script (lines : list (list byte)) (last : list byte)
  (chunks : list (list byte)) (e : Execd) (w : World) (p : parser_t) :
  parser e = Some p -> Forall no_NL lines -> no_NL last -> chunked chunks ->
  is_tail tail -> error_eqb (tail_err tail) bufio_ErrBufferFull = false ->
  concat chunks = concat (map record lines) ++ last ->
  exists F e' w',
    cmdReadOut_records e w (map record lines) = Done (e', w') /\
    forall fuel, F <= fuel ->
      cmdReadOut_loop fuel e (mkReader [] sz (map Data chunks ++ tail) None) w
      = if errors_Is (tail_err tail) io_EOF || errors_Is (tail_err tail) os_ErrClosed
        then Done (e', w')
        else cmdReadOut_loop (fuel - length lines - 1) e'
               (mkReader [] sz (tail_rest tail) None)
               (emit w' (AddError (Wrap "error reading stdout: " (tail_err tail)))).
Proof.
  intros Hp Hl Hlast Hc Ht He Heq.
  destruct (cmdReadOut_loop_records last lines chunks [] e w p Hp Hl Hc) as
    (F1 & e' & w' & chunks' & b1 & K1 & K2 & K3 & K4 & K5); [simpl; lia|exact Heq|].
  destruct (cmdReadOut_loop_tail last chunks' b1 e' w' K3 K4 Ht He Hlast K5) as (F2 & T).
  exists (F1 + F2 + length lines), e', w'. split; [exact K1|].
  intros fuel Hf. rewrite K2 by lia. rewrite T by lia. reflexivity.
Qed.

End BatchRuns.

Lemma NewReaderSize_spec (out : io_Reader) (n : Z) :
  NewReaderSize out n = mkReader [] (Z.to_nat (Z.max n minReadBufferSize)) out None /\
  0 < Z.to_nat (Z.max n minReadBufferSize).
Proof.
  split; [reflexivity|]. unfold minReadBufferSize. lia.
Qed.

Lemma unsplit_chunks (input : list byte) :
  exists chunks, unsplit input = map Data chunks /\ chunked chunks /\ concat chunks = input.
Proof.
  destruct input as [|x input].
  - exists []. repeat split. constructor.
  - exists [x :: input]. repeat split.
    + constructor; [discriminate|constructor].
    + simpl. rewrite app_nil_r. reflexivity.
Qed.


Lemma cmdReadOut_records_app (a b : list (list byte)) :
  forall e w,
    cmdReadOut_records e w (a ++ b) =
    match cmdReadOut_records e w a with
    | Done (e', w') => cmdReadOut_records e' w' b
    | Panic => Panic
    | OutOfFuel => OutOfFuel
    end.
Proof.
  induction a as [|r a IH]; intros e w; simpl; [reflexivity|].
  destruct (cmdReadOut_record e w r) as [[e1 w1]| |]; auto.
Qed.

Lemma errors_of_record_events (once : bool) (data : list byte) (ms : list Metric)
  (perr : option error) :
  errors_of (record_events once data ms perr) =
  match perr with
  | Some err => [Wrap "parse error: " err]
  | None => []
  end.
Proof.
  unfold record_events. rewrite !errors_of_app, errors_of_AddMetric.
  destruct perr; destruct ((length ms =? 0) && negb once); reflexivity.
Qed.

Lemma metrics_of_record_events (once : bool) (data : list byte) (ms : list Metric)
  (perr : option error) :
  metrics_of (record_events once data ms perr) = ms.
Proof.
  unfold record_events. rewrite !metrics_of_app, metrics_of_AddMetric.
  destruct perr; destruct ((length ms =? 0) && negb once); reflexivity.
Qed.

Lemma notices_record_events (once : bool) (data : list byte) (ms : list Metric)
  (perr : option error) :
  notices (record_events once data ms perr) =
  if (length ms =? 0) && negb once then 1 else 0.
Proof.
  unfold record_events. rewrite !notices_app, notices_AddMetric.
  destruct perr; destruct ((length ms =? 0) && negb once); unfold notices; simpl;
    rewrite ?String.eqb_refl; reflexivity.
Qed.

(** ** The batch demultiplexer and the splitting of its input *)

(** C1.  Complete newline-delimited records, delivered in any split into
    non-empty reads and through a buffer of any size: [cmdReadOut] returns,
    having handed the parser exactly the records, delimiter included and in
    order, and having forwarded with one [AddMetric] each, in order, the
    metrics the parser produces from them; the outcome is the one of the
    unsplit input. *)
Theorem cmdReadOut_records_any_split
  (lines chunks : list (list byte)) (e : Execd) (w : World) (p : parser_t) :
  parser e = Some p -> Forall no_NL lines -> chunked chunks ->
  concat chunks = concat (map record lines) ->
  exists F e' w',
    (forall fuel, F <= fuel ->
       cmdReadOut fuel e (map Data chunks) w = Done (e', w') /\
       cmdReadOut fuel e (unsplit (concat chunks)) w = Done (e', w')) /\
    cmdReadOut_records e w (map record lines) = Done (e', w') /\
    parse_calls_of (events w') = parse_calls_of (events w) ++ map record lines /\
    metrics_of (events w') = metrics_of (events w) ++ parser_metrics p (map record lines).
Proof.
  intros Hp Hl Hc Heq.
  destruct (NewReaderSize_spec [] (BufferSize e)) as [_ Hsz].
  assert (Heq' : concat chunks = concat (map record lines) ++ []) by (rewrite app_nil_r; exact Heq).
  destruct (cmdReadOut_loop_script _ [] Hsz lines [] chunks e w p Hp Hl
              ltac:(intros []) Hc I eq_refl Heq') as (F1 & e' & w' & R1 & K1).
  destruct (unsplit_chunks (concat chunks)) as (chunks1 & U1 & U2 & U3).
  rewrite <- U3 in Heq'.
  destruct (cmdReadOut_loop_script _ [] Hsz lines [] chunks1 e w p Hp Hl
              ltac:(intros []) U2 I eq_refl Heq') as (F2 & e2 & w2 & R2 & K2).
  rewrite R1 in R2. inversion R2; subst e2 w2.
  exists (Nat.max F1 F2), e', w'. split; [|split; [exact R1|]].
  - intros fuel Hf. unfold cmdReadOut, NewReaderSize. split.
    + rewrite <- (app_nil_r (map Data chunks)). rewrite K1 by lia. reflexivity.
    + rewrite U1, <- (app_nil_r (map Data chunks1)). rewrite K2 by lia. reflexivity.
  - destruct (cmdReadOut_records_Done (map record lines) e w p Hp)
      as (evs & o & D1 & D2 & D3 & _).
    rewrite D1 in R1. inversion R1; subst. cbn [events].
    rewrite parse_calls_of_app, metrics_of_app, D2, D3. auto.
Qed.

(** ** Read errors in the batch demultiplexer *)

Lemma cmdReadOut_loop_read_error (fuel : nat) (e : Execd) (rdr rdr' : bufio_Reader)
  (w : World) (data : list byte) (err : error) :
  ReadBytes fuel rdr NL = Done (rdr', data, Some err) ->
  cmdReadOut_loop (S fuel) e rdr w
  = if errors_Is err io_EOF || errors_Is err os_ErrClosed then Done (e, w)
    else cmdReadOut_loop fuel e rdr' (emit w (AddError (Wrap "error reading stdout: " err))).
Proof.
  intros H. rewrite cmdReadOut_loop_S, H. reflexivity.
Qed.

(** C6.  The stream delivers records (and possibly the beginning of a
    further line) and then a read error.  If the error is [io.EOF] or
    [os.ErrClosed], also wrapped, the loop returns and no error is reported
    for it: the calls made are those for the records.  For any other error
    the loop reports it, wrapped, and goes on reading what follows. *)
Theorem cmdReadOut_read_error
  (lines : list (list byte)) (last : list byte) (chunks : list (list byte))
  (err : error) (t : io_Reader) (e : Execd) (w : World) (p : parser_t) :
  parser e = Some p -> Forall no_NL lines -> no_NL last -> chunked chunks ->
  concat chunks = concat (map record lines) ++ last ->
  error_eqb err bufio_ErrBufferFull = false ->
  exists F e' w',
    cmdReadOut_records e w (map record lines) = Done (e', w') /\
    forall fuel, F <= fuel ->
      cmdReadOut fuel e (map Data chunks ++ Fail err :: t) w
      = if errors_Is err io_EOF || errors_Is err os_ErrClosed
        then Done (e', w')
        else cmdReadOut_loop (fuel - length lines - 1) e'
               (NewReaderSize t (BufferSize e))
               (emit w' (AddError (Wrap "error reading stdout: " err))).
Proof.
  intros Hp Hl Hlast Hc Heq He.
  destruct (NewReaderSize_spec [] (BufferSize e)) as [_ Hsz].
  destruct (cmdReadOut_loop_script _ (Fail err :: t) Hsz lines last chunks e w p Hp Hl
              Hlast Hc I He Heq) as (F1 & e' & w' & R1 & K1).
  exists F1, e', w'. split; [exact R1|].
  intros fuel Hf. unfold cmdReadOut, NewReaderSize. rewrite K1 by lia. reflexivity.
Qed.

(** ** Parse errors in the batch demultiplexer *)

(** C7.  A record on which the parser returns an error, among other
    records, in any split: the error is reported, wrapped, and every
    record after it is still handed to the parser and its metrics are
    forwarded. *)
Theorem cmdReadOut_parse_error_continues
  (pre goods : list (list byte)) (bad : list byte) (chunks : list (list byte))
  (e : Execd) (w : World) (p : parser_t) (err : error) :
  parser e = Some p -> Forall no_NL (pre ++ bad :: goods) -> chunked chunks ->
  concat chunks = concat (map record (pre ++ bad :: goods)) ->
  snd (snd (Parse (parser_after p (map record pre)) (record bad))) = Some err ->
  exists F e' w' evs_pre evs_bad evs_goods,
    (forall fuel, F <= fuel -> cmdReadOut fuel e (map Data chunks) w = Done (e', w')) /\
    events w' = events w ++ evs_pre ++ evs_bad ++ evs_goods /\
    parse_calls_of evs_bad = [record bad] /\
    errors_of evs_bad = [Wrap "parse error: " err] /\
    parse_calls_of evs_goods = map record goods /\
    metrics_of evs_goods
    = parser_metrics (fst (Parse (parser_after p (map record pre)) (record bad)))
        (map record goods).
Proof.
  intros Hp Hl Hc Heq Herr.
  destruct (cmdReadOut_records_any_split (pre ++ bad :: goods) chunks e w p Hp Hl Hc Heq)
    as (F & e' & w' & K & R & _).
  rewrite map_app in R. cbn [map] in R.
  rewrite cmdReadOut_records_app in R.
  destruct (cmdReadOut_records_Done (map record pre) e w p Hp) as (evs1 & o1 & D1 & _).
  rewrite D1 in R. cbn [cmdReadOut_records] in R.
  set (pb := parser_after p (map record pre)) in *.
  rewrite (cmdReadOut_record_Done (set_parser e (Some pb))
             {| once_done := o1; events := events w ++ evs1 |} (record bad) pb eq_refl) in R.
  cbn [once_done events] in R. rewrite set_parser_twice in R.
  match type of R with
  | cmdReadOut_records ?e2 ?w2 _ = _ =>
      destruct (cmdReadOut_records_Done (map record goods) e2 w2 (fst (Parse pb (record bad)))
                  eq_refl) as (evs3 & o3 & D3 & M3 & P3 & _)
  end.
  rewrite D3 in R.
  exists F, e', w', evs1,
    (record_events o1 (record bad) (fst (snd (Parse pb (record bad))))
       (snd (snd (Parse pb (record bad))))), evs3.
  split; [intros fuel Hf; apply (K fuel Hf)|].
  inversion R; subst e' w'. cbn [events].
  split; [rewrite <- !app_assoc; reflexivity|].
  rewrite errors_of_record_events, Herr.
  split; [|auto].
  unfold record_events. rewrite !parse_calls_of_app, parse_calls_of_AddMetric.
  destruct ((length (fst (snd (Parse pb (record bad)))) =? 0) && negb o1); reflexivity.
Qed.

(** C10.  When the parser returns an error for a record, the iteration
    still goes through the metric list returned with it before it turns to
    the next record: after the report of the error come the zero-metrics
    notice (if the list is empty and the once-flag is not yet set) and one
    [AddMetric] for each metric of the list. *)
Theorem cmdReadOut_parse_error_keeps_metrics
  (fuel : nat) (e : Execd) (rdr rdr' : bufio_Reader) (w : World)
  (data : list byte) (p : parser_t) (err : error) :
  parser e = Some p ->
  ReadBytes fuel rdr NL = Done (rdr', data, None) ->
  snd (snd (Parse p data)) = Some err ->
  let metrics := fst (snd (Parse p data)) in
  let w' :=
    {| once_done := once_done w || (length metrics =? 0);
       events := events w ++
                 [Parse_call data; AddError (Wrap "parse error: " err)] ++
                 (if (length metrics =? 0) && negb (once_done w)
                  then [Log Level_Debug NoMetricsCreatedMsg] else []) ++
                 map AddMetric metrics |} in
  cmdReadOut_record e w data = Done (set_parser e (Some (fst (Parse p data))), w') /\
  cmdReadOut_loop (S fuel) e rdr w
  = cmdReadOut_loop fuel (set_parser e (Some (fst (Parse p data)))) rdr' w'.
Proof.
  intros Hp HR Herr metrics w'.
  assert (Hrec : cmdReadOut_record e w data
                 = Done (set_parser e (Some (fst (Parse p data))), w')).
  { rewrite (cmdReadOut_record_Done e w data p Hp). unfold w', metrics, record_events.
    rewrite Herr. reflexivity. }
  split; [exact Hrec|].
  rewrite cmdReadOut_loop_S, HR, Hrec. reflexivity.
Qed.


(** ** The once-only notice *)

(** What is still allowed: one notice while the flag is unset, none after. *)
Lemma cmdReadOut_iter_once (fuel : nat) (e : Execd) (rdr : bufio_Reader) (w : World) :
  match cmdReadOut_iter fuel e rdr w with
  | Done (_, w') =>
      notices (events w') + (if once_done w' then 0 else 1)
      <= notices (events w) + (if once_done w then 0 else 1) /\
      (once_done w = true -> once_done w' = true)
  | _ => True
  end.
Proof.
  unfold cmdReadOut_iter.
  destruct (ReadBytes fuel rdr NL) as [[[rdr' data] [err0|]]| |]; auto.
  - destruct (errors_Is err0 io_EOF || errors_Is err0 os_ErrClosed).
    + split; [lia|auto].
    + unfold emit. cbn [events once_done]. rewrite notices_app.
      unfold notices at 2. simpl. split; [lia|auto].
  - unfold cmdReadOut_record. destruct (parser e) as [p|]; [|exact I].
    destruct (Parse p data) as [p' [ms perr]].
    rewrite fold_emit_metrics. unfold add_events. cbn [events once_done].
    rewrite notices_app, notices_AddMetric.
    assert (Hperr : forall w0 : World,
              notices (events (match perr with
                               | Some err1 => emit w0 (AddError (Wrap "parse error: " err1))
                               | None => w0
                               end)) = notices (events w0) /\
              once_done (match perr with
                         | Some err1 => emit w0 (AddError (Wrap "parse error: " err1))
                         | None => w0
                         end) = once_done w0).
    { intros w0. destruct perr; [|auto]. unfold emit. cbn [events once_done].
      rewrite notices_app. unfold notices at 2. simpl. split; [lia|reflexivity]. }
    destruct (length ms =? 0).
    + unfold once_Do. destruct (Hperr (emit w (Parse_call data))) as [H1 H2].
      rewrite H2. cbn [emit once_done]. destruct (once_done w) eqn:Ew.
      * rewrite H1, H2. unfold emit. cbn [events once_done]. rewrite Ew, notices_app.
        unfold notices at 2. simpl. split; [lia|auto].
      * cbn [events once_done]. unfold emit at 1. cbn [events]. rewrite notices_app, H1.
        unfold emit. cbn [events]. rewrite notices_app. unfold notices at 2 3. simpl.
        rewrite String.eqb_refl. simpl. split; [lia|auto].
    + destruct (Hperr (emit w (Parse_call data))) as [H1 H2].
      rewrite H1, H2. unfold emit. cbn [events once_done]. rewrite notices_app.
      unfold notices at 2. simpl. split; [lia|auto].
Qed.

Lemma process_step_once (step : nat * nat) (st : list Instance * World) :
  notices (events (snd (process_step step st)))
  + (if once_done (snd (process_step step st)) then 0 else 1)
  <= notices (events (snd st)) + (if once_done (snd st) then 0 else 1) /\
  (once_done (snd st) = true -> once_done (snd (process_step step st)) = true).
Proof.
  destruct step as [i fuel], st as [insts w]. unfold process_step.
  destruct (nth i insts None) as [[e rdr]|]; [|simpl; split; [lia|auto]].
  pose proof (cmdReadOut_iter_once fuel e rdr w) as H.
  destruct (cmdReadOut_iter fuel e rdr w) as [[inst' w']| |]; simpl; auto.
Qed.

Lemma process_run_once (schedule : list (nat * nat)) :
  forall st : list Instance * World,
    notices (events (snd (process_run schedule st)))
    + (if once_done (snd (process_run schedule st)) then 0 else 1)
    <= notices (events (snd st)) + (if once_done (snd st) then 0 else 1) /\
    (once_done (snd st) = true -> once_done (snd (process_run schedule st)) = true).
Proof.
  induction schedule as [|step schedule IH]; intros st.
  - simpl. split; [lia|auto].
  - cbn [process_run fold_left]. fold (process_run schedule (process_step step st)).
    destruct (IH (process_step step st)) as [H1 H2].
    destruct (process_step_once step st) as [H3 H4].
    split; [lia|auto].
Qed.

(** C3.  Any number of instances, any interleaving of their iterations:
    in the whole run the zero-metrics notice is logged at most once while
    the flag was unset at the start and not at all when it was set, so at
    most once in the lifetime of a process, which starts with the flag
    unset; and a set flag stays set. *)
Theorem once_notice_at_most_once
  (schedule : list (nat * nat)) (insts : list Instance) (w : World) :
  let w' := snd (process_run schedule (insts, w)) in
  notices (events w) <= notices (events w') /\
  notices (events w') <= notices (events w) + (if once_done w then 0 else 1) /\
  (once_done w = true -> once_done w' = true).
Proof.
  intros w'. destruct (process_run_once schedule (insts, w)) as [H1 H2].
  fold w' in H1, H2. cbn [snd] in H1, H2.
  assert (Hmono : notices (events w) <= notices (events w')).
  { unfold w'. clear. revert insts w. induction schedule as [|[i fuel] schedule IH]; intros insts w.
    - simpl. lia.
    - cbn [process_run fold_left]. fold (process_run schedule (process_step (i, fuel) (insts, w))).
      destruct (process_step (i, fuel) (insts, w)) as [insts1 w1] eqn:E.
      specialize (IH insts1 w1). cbn [snd] in *.
      enough (notices (events w) <= notices (events w1)) by lia.
      unfold process_step in E.
      destruct (nth i insts None) as [[e rdr]|]; [|inversion E; subst; lia].
      unfold cmdReadOut_iter in E.
      destruct (ReadBytes fuel rdr NL) as [[[rdr' data] [err0|]]| |];
        try (inversion E; subst; lia).
      + destruct (errors_Is err0 io_EOF || errors_Is err0 os_ErrClosed);
          inversion E; subst; [lia|]. cbn [emit events]. rewrite notices_app. lia.
      + destruct (parser e) as [p|] eqn:Ep.
        * rewrite (cmdReadOut_record_Done e w data p Ep) in E. inversion E; subst.
          cbn [events]. rewrite notices_app. lia.
        * unfold cmdReadOut_record in E. rewrite Ep in E. inversion E; subst. lia. }
  split; [exact Hmono|]. split; [|exact H2].
  destruct (once_done w'); lia.
Qed.


(** ** The streaming demultiplexer *)

Lemma add_events_emit (w : World) (ev : Event) (evs : list Event) :
  add_events (emit w ev) evs = add_events w (ev :: evs).
Proof.
  unfold add_events, emit. simpl. rewrite <- app_assoc. reflexivity.
Qed.

Lemma add_events_nil (w : World) : add_events w [] = w.
Proof.
  unfold add_events. rewrite app_nil_r. destruct w; reflexivity.
Qed.

Lemma cmdReadOutStream_loop_prefix (pre : list (Metric + error)) :
  forall d d1 w fuel,
    yields d pre d1 -> Forall continuing pre ->
    cmdReadOutStream_loop (length pre + fuel) d w
    = cmdReadOutStream_loop fuel d1 (add_events w (map stream_event pre)).
Proof.
  induction pre as [|r pre IH]; intros d d1 w fuel Hy Hc.
  - simpl in *. subst. rewrite add_events_nil. reflexivity.
  - destruct Hy as (d' & HN & Hy). inversion Hc as [|? ? Hr Hc']; subst.
    cbn [length Nat.add cmdReadOutStream_loop]. rewrite HN.
    destruct r as [m|err0]; cbn [map stream_event].
    + rewrite (IH d' d1 _ fuel Hy Hc'), add_events_emit. reflexivity.
    + destruct Hr as [H1 H2]. rewrite H1.
      destruct (errors_As_ParseError err0) as [pe|]; [|congruence].
      rewrite (IH d' d1 _ fuel Hy Hc'), add_events_emit. reflexivity.
Qed.

(** C2.  A run of [cmdReadOutStream] in which the decoder, after results
    the loop goes on from, returns an error: on the end-of-stream sentinel
    the loop returns and nothing is reported for it; on a typed parse error
    that error is reported and the loop goes on; on any other error exactly
    that error is reported and the loop returns, the decoder not being
    asked again. *)
Theorem cmdReadOutStream_on_error
  (out : io_Reader) (pre : list (Metric + error)) (d1 d2 : Decoder) (err : error)
  (w : World) :
  yields (NewStreamParser out) pre d1 -> Forall continuing pre ->
  Next d1 = (d2, inr err) ->
  let w1 := add_events w (map stream_event pre) in
  (errors_Is err influx_EOF = true ->
   forall fuel, length pre < fuel -> cmdReadOutStream fuel out w = Done (d2, w1)) /\
  (errors_Is err influx_EOF = false ->
   forall parseErr, errors_As_ParseError err = Some parseErr ->
   forall fuel,
     cmdReadOutStream (length pre + S fuel) out w
     = cmdReadOutStream_loop fuel d2 (emit w1 (AddError parseErr))) /\
  (errors_Is err influx_EOF = false -> errors_As_ParseError err = None ->
   forall fuel, length pre < fuel ->
     cmdReadOutStream fuel out w = Done (d2, emit w1 (AddError err))).
Proof.
  intros Hy Hc HN w1. unfold cmdReadOutStream.
  assert (Hstep : forall fuel,
            cmdReadOutStream_loop (length pre + S fuel) (NewStreamParser out) w
            = match (if errors_Is err influx_EOF then None else Some tt) with
              | None => Done (d2, w1)
              | Some _ =>
                  match errors_As_ParseError err with
                  | Some parseErr => cmdReadOutStream_loop fuel d2 (emit w1 (AddError parseErr))
                  | None => Done (d2, emit w1 (AddError err))
                  end
              end).
  { intros fuel. rewrite (cmdReadOutStream_loop_prefix pre _ d1 w (S fuel) Hy Hc).
    cbn [cmdReadOutStream_loop]. rewrite HN. fold w1.
    destruct (errors_Is err influx_EOF); reflexivity. }
  split; [|split].
  - intros HE fuel Hf. replace fuel with (length pre + S (fuel - length pre - 1)) by lia.
    rewrite Hstep, HE. reflexivity.
  - intros HE parseErr HA fuel. rewrite Hstep, HE, HA. reflexivity.
  - intros HE HA fuel Hf. replace fuel with (length pre + S (fuel - length pre - 1)) by lia.
    rewrite Hstep, HE, HA. reflexivity.
Qed.

(** ** The choice of the demultiplexer *)

Lemma cmdReadOut_record_outputReader (e e' : Execd) (w w' : World) (data : list byte) :
  cmdReadOut_record e w data = Done (e', w') -> outputReader e' = outputReader e.
Proof.
  unfold cmdReadOut_record. destruct (parser e) as [p|]; [|discriminate].
  destruct (Parse p data) as [p' [ms perr]]. intros H. inversion H. reflexivity.
Qed.

Lemma cmdReadOut_loop_outputReader (fuel : nat) :
  forall e rdr w e' w',
    cmdReadOut_loop fuel e rdr w = Done (e', w') -> outputReader e' = outputReader e.
Proof.
  induction fuel as [|fuel IH]; intros e rdr w e' w' H; [discriminate|].
  rewrite cmdReadOut_loop_S in H.
  destruct (ReadBytes fuel rdr NL) as [[[rdr' data] [err0|]]| |]; try discriminate.
  - destruct (errors_Is err0 io_EOF || errors_Is err0 os_ErrClosed).
    + inversion H. reflexivity.
    + apply (IH _ _ _ _ _ H).
  - destruct (cmdReadOut_record e w data) as [[e1 w1]| |] eqn:E; try discriminate.
    rewrite (IH _ _ _ _ _ H). apply (cmdReadOut_record_outputReader _ _ _ _ _ E).
Qed.

Lemma Start_outputReader (e : Execd) (w : World) :
  outputReader (fst (fst (Start e w))) = outputReader e /\
  forall pr, process (fst (fst (Start e w))) = Some pr -> ReadStdoutFn pr = outputReader e.
Proof.
  unfold Start. destruct (process_New (Command e) (Environment e)) as [h|err0].
  - destruct (process_Start h); cbn; (split; [reflexivity|]); intros pr H; inversion H;
      reflexivity.
  - cbn. split; [reflexivity|]. discriminate.
Qed.

Lemma apply_call_outputReader (st : Execd * World) (c : Call) :
  outputReader (fst (apply_call st c)) = outputReader (fst st).
Proof.
  destruct st as [e w]. destruct c as [| | |fuel out|fuel out|fuel out]; cbn [apply_call fst].
  - reflexivity.
  - apply Start_outputReader.
  - unfold Stop. destruct (process e); reflexivity.
  - unfold cmdReadOut.
    destruct (cmdReadOut_loop fuel e (NewReaderSize out (BufferSize e)) w) as [[e' w']| |] eqn:E;
      [|reflexivity|reflexivity].
    apply (cmdReadOut_loop_outputReader _ _ _ _ _ _ E).
  - destruct (cmdReadOutStream fuel out w) as [[d' w']| |]; reflexivity.
  - destruct (cmdReadErr fuel out w); reflexivity.
Qed.

Lemma calls_outputReader (calls : list Call) :
  forall st : Execd * World,
    outputReader (fst (fold_left apply_call calls st)) = outputReader (fst st).
Proof.
  induction calls as [|c calls IH]; intros st; [reflexivity|].
  cbn [fold_left]. rewrite IH. apply apply_call_outputReader.
Qed.

(** C4.  [SetParser] selects the streaming demultiplexer exactly for an
    [*influx.Parser] wrapped in a [*models.RunningParser]; any other
    parser, an unwrapped [*influx.Parser] included, gets the batch
    demultiplexer.  [Start] hands the selection to the process, and no
    later call on the instance changes it. *)
Theorem SetParser_selection (e : Execd) (p : parser_t) :
  (outputReader (SetParser e p) = Some cmdReadOutStream_fn <->
   exists st, p = models_RunningParser (influx_Parser st)) /\
  (outputReader (SetParser e p) = Some cmdReadOut_fn <->
   ~ exists st, p = models_RunningParser (influx_Parser st)) /\
  (forall st, outputReader (SetParser e (influx_Parser st)) = Some cmdReadOut_fn) /\
  (forall (w : World) (pr : Process),
     process (fst (fst (Start (SetParser e p) w))) = Some pr ->
     ReadStdoutFn pr = outputReader (SetParser e p)) /\
  (forall (calls : list Call) (w : World),
     outputReader (fst (fold_left apply_call calls (SetParser e p, w)))
     = outputReader (SetParser e p)).
Proof.
  split; [|split; [|split; [|split]]].
  - split.
    + destruct p as [st|[st|q|st]|st]; cbn; intros H; try discriminate. exists st. reflexivity.
    + intros [st ->]. reflexivity.
  - split.
    + intros H [st ->]. discriminate.
    + intros H. destruct p as [st|[st|q|st]|st]; cbn; try reflexivity.
      exfalso. apply H. exists st. reflexivity.
  - reflexivity.
  - intros w pr H. apply (Start_outputReader (SetParser e p) w). exact H.
  - intros calls w. apply (calls_outputReader calls (SetParser e p, w)).
Qed.

(** ** Init *)

(** C9.  [Init] returns an error exactly when the command list is empty;
    the agent then stops there: the instance and the outside world are as
    before, no process has been created or started. *)
Theorem Init_empty_command (e : Execd) (w : World) :
  (Init e <> None <-> Command e = []) /\
  (Command e = [] ->
   Init e = Some (errors_New "no command specified") /\
   host_launch e w = (e, w, Some (errors_New "no command specified")) /\
   (~ spawned (events w) -> ~ spawned (events (snd (fst (host_launch e w)))))) /\
  (Command e <> [] -> Init e = None /\ host_launch e w = Start e w).
Proof.
  unfold host_launch, Init. destruct (Command e) as [|c cs] eqn:E; cbn.
  - split; [split; [reflexivity|discriminate]|]. split; [|congruence]. auto.
  - split; [split; [congruence|discriminate]|]. split; [discriminate|]. auto.
Qed.


(** ** The stderr router: one line *)

Lemma substring_0_length (s : string) : String.substring 0 (String.length s) s = s.
Proof.
  induction s as [|c s IH]; simpl; [reflexivity|]. rewrite IH. reflexivity.
Qed.

Lemma prefix_split (p s : string) :
  String.prefix p s = true -> exists rest, s = (p ++ rest)%string.
Proof.
  revert s. induction p as [|a p IH]; intros s H.
  - exists s. reflexivity.
  - destruct s as [|b s]; simpl in H; [discriminate|].
    destruct (Ascii.ascii_dec a b) as [->|]; [|discriminate].
    destruct (IH s H) as [rest ->]. exists rest. reflexivity.
Qed.

Lemma HasPrefix_false (p msg : string) :
  (forall rest, msg <> (p ++ rest)%string) -> strings_HasPrefix msg p = false.
Proof.
  intros H. unfold strings_HasPrefix. destruct (String.prefix p msg) eqn:E; [|reflexivity].
  destruct (prefix_split p msg E) as [rest Hr]. exfalso. apply (H rest Hr).
Qed.

Lemma cmdReadErr_line_prefixed (a : ascii) (rest : string) :
  strings_HasPrefix (String a (String "!" (String " " rest))) (String a (String "!" (String " " EmptyString))) = true /\
  slice_from 3 (String a (String "!" (String " " rest))) = rest.
Proof.
  split.
  - unfold strings_HasPrefix. simpl. destruct (Ascii.ascii_dec a a); [|congruence].
    destruct rest; reflexivity.
  - unfold slice_from. simpl. rewrite Nat.sub_0_r. apply substring_0_length.
Qed.

(** C5.  A line that begins with one of the five three-character prefixes
    goes to the matching level without the prefix; any other line goes to
    Error as [stderr: ] followed by the quoted line. *)
Theorem cmdReadErr_line_routing :
  ((forall rest, cmdReadErr_line ("E! " ++ rest) = Log Level_Error rest) /\
   (forall rest, cmdReadErr_line ("W! " ++ rest) = Log Level_Warn rest) /\
   (forall rest, cmdReadErr_line ("I! " ++ rest) = Log Level_Info rest) /\
   (forall rest, cmdReadErr_line ("D! " ++ rest) = Log Level_Debug rest) /\
   (forall rest, cmdReadErr_line ("T! " ++ rest) = Log Level_Trace rest) /\
   (forall msg,
      (forall rest, msg <> "E! " ++ rest) -> (forall rest, msg <> "W! " ++ rest) ->
      (forall rest, msg <> "I! " ++ rest) -> (forall rest, msg <> "D! " ++ rest) ->
      (forall rest, msg <> "T! " ++ rest) ->
      cmdReadErr_line msg = Log Level_Error ("stderr: " ++ strconv_Quote msg)) /\
   cmdReadErr_line "W! disk full" = Log Level_Warn "disk full" /\
   cmdReadErr_line "custom text"
   = Log Level_Error ("stderr: " ++ String quote_char ("custom text" ++ str1 quote_char)))%string.
Proof.
  assert (P : forall a rest,
            slice_from 3 (String a (String "!" (String " " rest))) = rest)
    by (intros a rest; apply (cmdReadErr_line_prefixed a rest)).
  repeat split.
  - intros rest. unfold cmdReadErr_line. simpl String.append.
    rewrite (proj1 (cmdReadErr_line_prefixed "E" rest)), P. reflexivity.
  - intros rest. unfold cmdReadErr_line. simpl String.append.
    rewrite (proj1 (cmdReadErr_line_prefixed "W" rest)), P. reflexivity.
  - intros rest. unfold cmdReadErr_line. simpl String.append.
    rewrite (proj1 (cmdReadErr_line_prefixed "I" rest)), P. reflexivity.
  - intros rest. unfold cmdReadErr_line. simpl String.append.
    rewrite (proj1 (cmdReadErr_line_prefixed "D" rest)), P. reflexivity.
  - intros rest. unfold cmdReadErr_line. simpl String.append.
    rewrite (proj1 (cmdReadErr_line_prefixed "T" rest)), P. reflexivity.
  - intros msg HE HW HI HD HT. unfold cmdReadErr_line.
    rewrite (HasPrefix_false _ _ HE), (HasPrefix_false _ _ HW), (HasPrefix_false _ _ HI),
      (HasPrefix_false _ _ HD), (HasPrefix_false _ _ HT). reflexivity.
Qed.


(** ** bufio.Scanner *)

Lemma startBufSize_bounds : 0 < startBufSize /\ startBufSize <= MaxScanTokenSize.
Proof.
  split; [apply Nat.ltb_lt|apply Nat.leb_le]; vm_compute; reflexivity.
Qed.

Lemma Scan_newSize_gt (len : nat) :
  len < MaxScanTokenSize -> len < Scan_newSize len /\ Scan_newSize len <= MaxScanTokenSize.
Proof.
  intros H. destruct startBufSize_bounds as [B1 B2]. unfold Scan_newSize.
  destruct (len * 2 =? 0) eqn:E.
  - apply Nat.eqb_eq in E. lia.
  - apply Nat.eqb_neq in E. lia.
Qed.

Lemma Scan_read_eq (k : nat) (s : Scanner) :
  Scan_read k s =
  let '(p, e, r') := Read (s_r s) (s_len s - (s_start s + length (s_buf s))) in
  let s' := {| s_r := r'; s_tok := s_tok s; s_buf := s_buf s ++ p; s_len := s_len s;
               s_start := s_start s; s_err := s_err s |} in
  match e with
  | Some e' => setErr s' e'
  | None =>
      if 0 <? length p then s'
      else match k with
           | 0 => setErr s' io_ErrNoProgress
           | S k' => Scan_read k' s'
           end
  end.
Proof.
  destruct k; reflexivity.
Qed.

Lemma Scan_read_data (k : nat) (chunks : list (list byte)) (tail : io_Reader)
  (tok : option (list byte)) (b : list byte) (len start : nat) :
  start + length b < len -> chunked chunks -> chunks <> [] ->
  exists p chunks',
    Scan_read k (mkScanner (map Data chunks ++ tail) tok b len start None)
    = mkScanner (map Data chunks' ++ tail) tok (b ++ p) len start None /\
    p <> [] /\ start + length (b ++ p) <= len /\ p ++ concat chunks' = concat chunks /\
    chunked chunks'.
Proof.
  intros Hs Hc Hne.
  destruct (Read_data chunks tail (len - (start + length b)) Hc Hne)
    as (p & chunks' & HR & Hp & Hl & Hcat & Hc'); [lia|].
  exists p, chunks'. rewrite Scan_read_eq. cbn [s_r s_tok s_buf s_len s_start s_err].
  rewrite HR. pose proof (nonempty_length p Hp) as Hlen.
  apply Nat.ltb_lt in Hlen. rewrite Hlen. apply Nat.ltb_lt in Hlen.
  repeat split; auto. rewrite length_app. lia.
Qed.

Lemma Scan_read_tail (k : nat) (tail : io_Reader)
  (tok : option (list byte)) (b : list byte) (len start : nat) :
  is_tail tail ->
  Scan_read k (mkScanner tail tok b len start None)
  = mkScanner (tail_rest tail) tok b len start (Some (tail_err tail)).
Proof.
  intros Ht. rewrite Scan_read_eq. cbn [s_r s_tok s_buf s_len s_start s_err].
  rewrite (Read_tail tail _ Ht). unfold setErr. cbn [s_r s_tok s_buf s_len s_start s_err].
  rewrite app_nil_r. reflexivity.
Qed.

(** The split step. *)
Lemma Scan_split_found (r : io_Reader) (tok : option (list byte)) (line r1 : list byte)
  (len start : nat) (e : option error) :
  no_NL line ->
  Scan_split (mkScanner r tok (line ++ NL :: r1) len start e)
  = (mkScanner r (Some (dropCR line)) r1 len (start + (length line + 1)) e,
     Some (dropCR line)).
Proof.
  intros Hl. unfold Scan_split. cbn [s_r s_tok s_buf s_len s_start s_err].
  assert (Hpos : 0 < length (line ++ NL :: r1)) by (rewrite length_app; simpl; lia).
  assert (H1 : (0 <? length (line ++ NL :: r1)) = true) by (apply Nat.ltb_lt; exact Hpos).
  assert (H2 : (length (line ++ NL :: r1) =? 0) = false) by (apply Nat.eqb_neq; lia).
  rewrite H1. cbn [orb]. unfold ScanLines. rewrite H2, andb_false_r.
  rewrite (IndexByte_first line r1 NL Hl), skipn_record, firstn_length_app. reflexivity.
Qed.

Lemma Scan_split_none (r : io_Reader) (tok : option (list byte)) (b : list byte)
  (len start : nat) :
  ~ In NL b ->
  exists tok',
    Scan_split (mkScanner r tok b len start None)
    = (mkScanner r tok' b len start None, None).
Proof.
  intros Hn. unfold Scan_split. cbn [s_r s_tok s_buf s_len s_start s_err isSome].
  destruct b as [|x b].
  - exists tok. reflexivity.
  - exists None. cbn [length Nat.ltb Nat.leb orb]. unfold ScanLines. cbn [andb].
    apply IndexByte_None in Hn. rewrite Hn. cbn [skipn]. rewrite Nat.add_0_r. reflexivity.
Qed.

Lemma Scan_split_eof_empty (r : io_Reader) (tok : option (list byte)) (len start : nat)
  (e : error) :
  Scan_split (mkScanner r tok [] len start (Some e))
  = (mkScanner r None [] len start (Some e), None).
Proof.
  unfold Scan_split. cbn [s_r s_tok s_buf s_len s_start s_err isSome length Nat.ltb Nat.leb orb].
  unfold ScanLines. cbn. rewrite Nat.add_0_r. reflexivity.
Qed.

Lemma Scan_split_eof_last (r : io_Reader) (tok : option (list byte)) (b : list byte)
  (len start : nat) (e : error) :
  b <> [] -> ~ In NL b ->
  Scan_split (mkScanner r tok b len start (Some e))
  = (mkScanner r (Some (dropCR b)) [] len (start + length b) (Some e), Some (dropCR b)).
Proof.
  intros Hne Hn. unfold Scan_split. cbn [s_r s_tok s_buf s_len s_start s_err isSome].
  rewrite orb_true_r. unfold ScanLines.
  assert (H2 : (length b =? 0) = false)
    by (apply Nat.eqb_neq; pose proof (nonempty_length b Hne); lia).
  rewrite H2. cbn [andb]. apply IndexByte_None in Hn. rewrite Hn, skipn_all. reflexivity.
Qed.

(** Shifting and growing leave room for a read as long as what the buffer
    holds is shorter than the largest token. *)
Lemma Scan_shift_grow (r : io_Reader) (tok : option (list byte)) (b : list byte)
  (len start : nat) :
  start + length b <= len -> len <= MaxScanTokenSize -> length b < MaxScanTokenSize ->
  exists len' start',
    Scan_grow (Scan_shift (mkScanner r tok b len start None))
    = Some (mkScanner r tok b len' start' None) /\
    start' + length b < len' /\ len' <= MaxScanTokenSize.
Proof.
  intros Hi Hm Hb.
  assert (Hgrow : forall start0,
            start0 + length b <= len -> (start0 + length b = len -> start0 = 0) ->
            exists len' start',
              Scan_grow (mkScanner r tok b len start0 None)
              = Some (mkScanner r tok b len' start' None) /\
              start' + length b < len' /\ len' <= MaxScanTokenSize).
  { intros start0 H0 H1. unfold Scan_grow. cbn [s_r s_tok s_buf s_len s_start s_err].
    destruct (start0 + length b =? len) eqn:E.
    - apply Nat.eqb_eq in E. specialize (H1 E). subst start0.
      assert (E2 : (MaxScanTokenSize <=? len) = false) by (apply Nat.leb_gt; lia).
      rewrite E2. exists (Scan_newSize len), 0. split; [reflexivity|].
      destruct (Scan_newSize_gt len) as [G1 G2]; lia.
    - apply Nat.eqb_neq in E. exists len, start0. split; [reflexivity|]. lia. }
  unfold Scan_shift. cbn [s_r s_tok s_buf s_len s_start s_err].
  destruct ((0 <? start) && ((start + length b =? len) || (len / 2 <? start))) eqn:Esh.
  - apply Hgrow; lia.
  - apply Hgrow; [exact Hi|]. intros E. apply Nat.eqb_eq in E. rewrite E in Esh.
    cbn [orb] in Esh. rewrite andb_true_r in Esh. apply Nat.ltb_ge in Esh. lia.
Qed.

Lemma Scan_S (fuel : nat) (s : Scanner) :
  Scan (S fuel) s =
  let '(s1, token) := Scan_split s in
  match token with
  | Some _ => Done (s1, true)
  | None =>
      if isSome (s_err s) then
        Done ({| s_r := s_r s1; s_tok := s_tok s1; s_buf := []; s_len := s_len s1;
                 s_start := 0; s_err := s_err s1 |}, false)
      else
        match Scan_grow (Scan_shift s1) with
        | None => Done (setErr (Scan_shift s1) bufio_ErrTooLong, false)
        | Some s3 => Scan fuel (Scan_read maxConsecutiveEmptyReads s3)
        end
  end.
Proof. reflexivity. Qed.

Lemma Scan_mono (fuel : nat) :
  forall fuel' s r, Scan fuel s = Done r -> fuel <= fuel' -> Scan fuel' s = Done r.
Proof.
  induction fuel as [|fuel IH]; intros fuel' s r H Hle; [discriminate|].
  destruct fuel' as [|fuel']; [lia|]. rewrite Scan_S in *.
  destruct (Scan_split s) as [s1 [t|]]; [exact H|].
  destruct (isSome (s_err s)); [exact H|].
  destruct (Scan_grow (Scan_shift s1)); [|exact H].
  apply IH; [exact H|lia].
Qed.

(** The ways an iteration of [Scan] goes. *)
Lemma Scan_found (fuel : nat) (r : io_Reader) (tok : option (list byte)) (line r1 : list byte)
  (len start : nat) (e : option error) :
  no_NL line ->
  Scan (S fuel) (mkScanner r tok (line ++ NL :: r1) len start e)
  = Done (mkScanner r (Some (dropCR line)) r1 len (start + (length line + 1)) e, true).
Proof.
  intros Hl. rewrite Scan_S, (Scan_split_found r tok line r1 len start e Hl). reflexivity.
Qed.

Lemma Scan_eof_empty (fuel : nat) (r : io_Reader) (tok : option (list byte)) (len start : nat)
  (e : error) :
  Scan (S fuel) (mkScanner r tok [] len start (Some e))
  = Done (mkScanner r None [] len 0 (Some e), false).
Proof.
  rewrite Scan_S, Scan_split_eof_empty. reflexivity.
Qed.

Lemma Scan_eof_last (fuel : nat) (r : io_Reader) (tok : option (list byte)) (b : list byte)
  (len start : nat) (e : error) :
  b <> [] -> ~ In NL b ->
  Scan (S fuel) (mkScanner r tok b len start (Some e))
  = Done (mkScanner r (Some (dropCR b)) [] len (start + length b) (Some e), true).
Proof.
  intros Hne Hn. rewrite Scan_S, (Scan_split_eof_last r tok b len start e Hne Hn). reflexivity.
Qed.

Lemma Scan_more (chunks : list (list byte)) (tail : io_Reader)
  (tok : option (list byte)) (b : list byte) (len start : nat) :
  start + length b <= len -> len <= MaxScanTokenSize -> length b < MaxScanTokenSize ->
  ~ In NL b -> chunked chunks -> chunks <> [] ->
  exists tok' len' start' p chunks',
    (forall fuel,
       Scan (S fuel) (mkScanner (map Data chunks ++ tail) tok b len start None)
       = Scan fuel (mkScanner (map Data chunks' ++ tail) tok' (b ++ p) len' start' None)) /\
    start' + length (b ++ p) <= len' /\ len' <= MaxScanTokenSize /\
    p <> [] /\ p ++ concat chunks' = concat chunks /\ chunked chunks'.
Proof.
  intros Hi Hm Hb Hn Hc Hne.
  destruct (Scan_split_none (map Data chunks ++ tail) tok b len start Hn) as [tok' Hsp].
  destruct (Scan_shift_grow (map Data chunks ++ tail) tok' b len start Hi Hm Hb)
    as (len' & start' & Hg & G1 & G2).
  destruct (Scan_read_data maxConsecutiveEmptyReads chunks tail tok' b len' start' G1 Hc Hne)
    as (p & chunks' & HR & Hp & Hl & Hcat & Hc').
  exists tok', len', start', p, chunks'.
  split; [|repeat split; assumption].
  intros fuel. rewrite Scan_S, Hsp. cbn [s_err isSome]. rewrite Hg, HR. reflexivity.
Qed.

Lemma Scan_more_tail (tail : io_Reader)
  (tok : option (list byte)) (b : list byte) (len start : nat) :
  start + length b <= len -> len <= MaxScanTokenSize -> length b < MaxScanTokenSize ->
  ~ In NL b -> is_tail tail ->
  exists tok' len' start',
    forall fuel,
      Scan (S fuel) (mkScanner tail tok b len start None)
      = Scan fuel (mkScanner (tail_rest tail) tok' b len' start' (Some (tail_err tail))).
Proof.
  intros Hi Hm Hb Hn Ht.
  destruct (Scan_split_none tail tok b len start Hn) as [tok' Hsp].
  destruct (Scan_shift_grow tail tok' b len start Hi Hm Hb)
    as (len' & start' & Hg & G1 & G2).
  exists tok', len', start'. intros fuel.
  rewrite Scan_S, Hsp. cbn [s_err isSome].
  rewrite Hg, (Scan_read_tail maxConsecutiveEmptyReads tail tok' b len' start' Ht). reflexivity.
Qed.


Section ScannerRuns.

Variable tail : io_Reader.

(** [Scan] when a line end is ahead: the line is the token, whatever the
    chunking, as long as the line is short enough for the buffer. *)
Lemma Scan_line (line rest : list byte) (n : nat) :
  forall chunks tok b len start,
    length (concat chunks) <= n -> chunked chunks ->
    start + length b <= len -> len <= MaxScanTokenSize ->
    short_line line -> b ++ concat chunks = line ++ NL :: rest ->
    exists fuel chunks' b' len' start',
      Scan fuel (mkScanner (map Data chunks ++ tail) tok b len start None)
      = Done (mkScanner (map Data chunks' ++ tail) (Some (dropCR line)) b' len' start' None,
              true) /\
      chunked chunks' /\ start' + length b' <= len' /\ len' <= MaxScanTokenSize /\
      b' ++ concat chunks' = rest.
Proof.
  induction n as [|n IH]; intros chunks tok b len start Hn Hc Hi Hm [Hl Hs] Heq.
  all: destruct (app_split_first _ _ _ _ _ Heq Hl) as [[Hnb (line' & E1 & E2)]|(r1 & E1 & E2)].
  2,4: exists 1, chunks, r1, len, (start + (length line + 1)); subst b;
       rewrite (Scan_found 0 _ tok line r1 len start None Hl);
       rewrite length_app in Hi; simpl in Hi; repeat split; auto; lia.
  - exfalso. rewrite E2 in Hn. rewrite length_app in Hn. simpl in Hn. lia.
  - assert (Hne : chunks <> []).
    { apply concat_nonempty. rewrite E2. destruct line'; discriminate. }
    assert (Hb : length b < MaxScanTokenSize).
    { rewrite E1, length_app in Hs. lia. }
    destruct (Scan_more chunks tail tok b len start Hi Hm Hb Hnb Hc Hne)
      as (tok' & len' & start' & p & chunks' & Hstep & G1 & G2 & Hp & Hcat & Hc').
    apply nonempty_length in Hp.
    destruct (IH chunks' tok' (b ++ p) len' start')
      as (fuel & chunks2 & b2 & len2 & start2 & K1 & K2 & K3 & K4 & K5).
    + rewrite <- Hcat, length_app in Hn. lia.
    + exact Hc'.
    + exact G1.
    + exact G2.
    + split; assumption.
    + rewrite <- app_assoc, Hcat. exact Heq.
    + exists (S fuel), chunks2, b2, len2, start2.
      rewrite Hstep, K1. repeat split; assumption.
Qed.

(** [Scan] at the end of the data: the unterminated rest, if there is one,
    is a last token; the scanner is left with the error of the reader. *)
Lemma Scan_last (last : list byte) (n : nat) :
  forall chunks tok b len start,
    length (concat chunks) <= n -> chunked chunks ->
    start + length b <= len -> len <= MaxScanTokenSize ->
    is_tail tail -> short_line last -> b ++ concat chunks = last ->
    exists fuel tok' len' start',
      Scan fuel (mkScanner (map Data chunks ++ tail) tok b len start None)
      = match last with
        | [] => Done (mkScanner (tail_rest tail) tok' [] len' start' (Some (tail_err tail)),
                      false)
        | _ => Done (mkScanner (tail_rest tail) (Some (dropCR last)) [] len' start'
                       (Some (tail_err tail)), true)
        end.
Proof.
  induction n as [|n IH]; intros chunks tok b len start Hn Hc Hi Hm Ht [Hl Hs] Heq.
  all: destruct (app_no_delim _ _ _ _ Heq Hl) as [Hnb Hnc].
  all: assert (Hb : length b < MaxScanTokenSize)
         by (rewrite <- Heq, length_app in Hs; lia).
  all: destruct chunks as [|c cs].
  1,3: simpl in Heq; rewrite app_nil_r in Heq; subst b; cbn [map app];
       destruct (Scan_more_tail tail tok last len start Hi Hm Hb Hnb Ht)
         as (tok' & len' & start' & Hstep);
       destruct last as [|x last];
       [exists 2, None, len', 0; rewrite Hstep; apply Scan_eof_empty
       |exists 2, None, len', (start' + length (x :: last)); rewrite Hstep;
        apply Scan_eof_last; [discriminate|exact Hnb]].
  - exfalso. inversion Hc as [|? ? Hc1 Hc2]; subst. simpl in Hn. rewrite length_app in Hn.
    apply nonempty_length in Hc1. lia.
  - destruct (Scan_more (c :: cs) tail tok b len start Hi Hm Hb Hnb Hc ltac:(discriminate))
      as (tok' & len' & start' & p & chunks' & Hstep & G1 & G2 & Hp & Hcat & Hc').
    apply nonempty_length in Hp.
    destruct (IH chunks' tok' (b ++ p) len' start')
      as (fuel & tok2 & len2 & start2 & K1).
    + rewrite <- Hcat, length_app in Hn. lia.
    + exact Hc'.
    + exact G1.
    + exact G2.
    + exact Ht.
    + split; assumption.
    + rewrite <- app_assoc, Hcat. exact Heq.
    + exists (S fuel), tok2, len2, start2. rewrite Hstep. exact K1.
Qed.

End ScannerRuns.


(** ** Runs of the stderr router *)

Lemma cmdReadErr_loop_S (fuel : nat) (scanner : Scanner) (w : World) :
  cmdReadErr_loop (S fuel) scanner w =
  match Scan fuel scanner with
  | Done (scanner', true) =>
      cmdReadErr_loop fuel scanner' (emit w (cmdReadErr_line (Scanner_Text scanner')))
  | Done (scanner', false) =>
      match Scanner_Err scanner' with
      | Some err => Done (emit w (AddError (Wrap "error reading stderr: " err)))
      | None => Done w
      end
  | Panic => Panic
  | OutOfFuel => OutOfFuel
  end.
Proof. reflexivity. Qed.

Lemma add_events_app (w : World) (a b : list Event) :
  add_events (add_events w a) b = add_events w (a ++ b).
Proof.
  unfold add_events. simpl. rewrite <- app_assoc. reflexivity.
Qed.

Lemma cmdReadErr_scan_end (w : World) (r : io_Reader) (tok : option (list byte))
  (b : list byte) (len start : nat) (e : error) :
  match Scanner_Err (mkScanner r tok b len start (Some e)) with
  | Some err => Done (emit w (AddError (Wrap "error reading stderr: " err)))
  | None => Done w
  end = Done (add_events w (scan_error_events e)).
Proof.
  unfold Scanner_Err, scan_error_events. cbn [s_err].
  destruct (error_eqb e io_EOF); [rewrite add_events_nil|]; reflexivity.
Qed.

Section RouterRuns.

Variable tail : io_Reader.

Let line_event (l : list byte) : Event :=
  cmdReadErr_line (string_of_list_byte (dropCR l)).

Lemma cmdReadErr_loop_lines (rest : list byte) (lines : list (list byte)) :
  forall chunks tok b len start w,
    Forall short_line lines -> chunked chunks ->
    start + length b <= len -> len <= MaxScanTokenSize ->
    b ++ concat chunks = concat (map record lines) ++ rest ->
    exists F chunks' tok' b' len' start',
      (forall fuel, F <= fuel ->
         cmdReadErr_loop fuel (mkScanner (map Data chunks ++ tail) tok b len start None) w
         = cmdReadErr_loop (fuel - length lines)
             (mkScanner (map Data chunks' ++ tail) tok' b' len' start' None)
             (add_events w (map line_event lines))) /\
      chunked chunks' /\ start' + length b' <= len' /\ len' <= MaxScanTokenSize /\
      b' ++ concat chunks' = rest.
Proof.
  induction lines as [|line lines IH]; intros chunks tok b len start w Hl Hc Hi Hm Heq.
  - exists 0, chunks, tok, b, len, start. simpl. rewrite add_events_nil.
    repeat split; auto. intros fuel _. rewrite Nat.sub_0_r. reflexivity.
  - inversion Hl as [|? ? Hl1 Hl2]; subst.
    rewrite concat_records_cons in Heq.
    destruct (Scan_line tail line _ _ chunks tok b len start (le_n _) Hc Hi Hm Hl1 Heq)
      as (f0 & chunks1 & b1 & len1 & start1 & S1 & S2 & S3 & S4 & S5).
    destruct (IH chunks1 (Some (dropCR line)) b1 len1 start1 (emit w (line_event line))
                Hl2 S2 S3 S4 S5)
      as (F1 & chunks' & tok' & b' & len' & start' & K1 & K2 & K3 & K4 & K5).
    exists (S (Nat.max f0 F1)), chunks', tok', b', len', start'.
    split; [|repeat split; assumption].
    intros fuel Hf. destruct fuel as [|fuel]; [lia|].
    rewrite cmdReadErr_loop_S, (Scan_mono f0 fuel _ _ S1) by lia.
    unfold Scanner_Text. cbn [s_tok]. fold (line_event line).
    rewrite K1 by lia. cbn [map length Nat.sub]. rewrite add_events_emit. reflexivity.
Qed.

Lemma cmdReadErr_loop_last (last : list byte) (chunks : list (list byte))
  (tok : option (list byte)) (b : list byte) (len start : nat) (w : World) :
  chunked chunks -> start + length b <= len -> len <= MaxScanTokenSize ->
  is_tail tail -> short_line last -> b ++ concat chunks = last ->
  exists F,
    forall fuel, F <= fuel ->
      cmdReadErr_loop fuel (mkScanner (map Data chunks ++ tail) tok b len start None) w
      = Done (add_events w
                (map line_event (match last with [] => [] | _ => [last] end)
                 ++ scan_error_events (tail_err tail))).
Proof.
  intros Hc Hi Hm Ht Hl Heq.
  destruct (Scan_last tail last _ chunks tok b len start (le_n _) Hc Hi Hm Ht Hl Heq)
    as (f0 & tok' & len' & start' & S1).
  exists (S (S (S f0))). intros fuel Hf.
  destruct fuel as [|[|[|fuel]]]; [lia|lia|lia|].
  rewrite cmdReadErr_loop_S. destruct last as [|x last].
  - rewrite (Scan_mono f0 (S (S fuel)) _ _ S1) by lia.
    rewrite cmdReadErr_scan_end. reflexivity.
  - rewrite (Scan_mono f0 (S (S fuel)) _ _ S1) by lia.
    rewrite cmdReadErr_loop_S, Scan_eof_empty, cmdReadErr_scan_end.
    unfold Scanner_Text. cbn [s_tok map]. fold (line_event (x :: last)).
    rewrite add_events_emit. reflexivity.
Qed.

End RouterRuns.

Lemma cmdReadErr_loop_scan_error (fuel : nat) (scanner scanner' : Scanner) (w : World)
  (err : error) :
  Scan fuel scanner = Done (scanner', false) -> Scanner_Err scanner' = Some err ->
  cmdReadErr_loop (S fuel) scanner w
  = Done (emit w (AddError (Wrap "error reading stderr: " err))).
Proof.
  intros H1 H2. rewrite cmdReadErr_loop_S, H1, H2. reflexivity.
Qed.

(** C8, as the code has it.  Each line of the stream that is shorter than
    [MaxScanTokenSize] (64 KiB) is routed as one logical line, in order and
    whatever the chunking, the unterminated rest included; when the reads
    end in an error other than [io.EOF] that error is reported, wrapped,
    and the loop returns; and whenever [Scan] stops on an error the loop
    reports it and returns. *)
Theorem cmdReadErr_lines_and_scan_error :
  (forall (lines : list (list byte)) (last : list byte) (chunks : list (list byte))
          (tail : io_Reader) (w : World),
     Forall short_line lines -> short_line last -> chunked chunks -> is_tail tail ->
     concat chunks = concat (map record lines) ++ last ->
     exists F,
       forall fuel, F <= fuel ->
         cmdReadErr fuel (map Data chunks ++ tail) w
         = Done (add_events w (stderr_events lines last
                               ++ scan_error_events (tail_err tail)))) /\
  (forall (fuel : nat) (scanner scanner' : Scanner) (w : World) (err : error),
     Scan fuel scanner = Done (scanner', false) -> Scanner_Err scanner' = Some err ->
     cmdReadErr_loop (S fuel) scanner w
     = Done (emit w (AddError (Wrap "error reading stderr: " err)))).
Proof.
  split; [|exact cmdReadErr_loop_scan_error].
  intros lines last chunks tail w Hl Hlast Hc Ht Heq.
  destruct (cmdReadErr_loop_lines tail last lines chunks None [] 0 0 w Hl Hc)
    as (F1 & chunks' & tok' & b' & len' & start' & K1 & K2 & K3 & K4 & K5);
    [simpl; lia|lia|exact Heq|].
  destruct (cmdReadErr_loop_last tail last chunks' tok' b' len' start'
              (add_events w (map (fun l => cmdReadErr_line (string_of_list_byte (dropCR l))) lines))
              K2 K3 K4 Ht Hlast K5) as (F2 & T).
  exists (F1 + F2 + length lines). intros fuel Hf.
  unfold cmdReadErr, NewScanner. rewrite K1 by lia. rewrite T by lia.
  rewrite add_events_app. unfold stderr_events. rewrite map_app, <- app_assoc. reflexivity.
Qed.


Lemma cmdReadErr_loop_mono (fuel : nat) :
  forall fuel' scanner w r,
    cmdReadErr_loop fuel scanner w = Done r -> fuel <= fuel' ->
    cmdReadErr_loop fuel' scanner w = Done r.
Proof.
  induction fuel as [|fuel IH]; intros fuel' scanner w r H Hle; [discriminate|].
  destruct fuel' as [|fuel']; [lia|]. rewrite cmdReadErr_loop_S in *.
  destruct (Scan fuel scanner) as [[s' [|]]| |] eqn:E; try discriminate.
  - rewrite (Scan_mono fuel fuel' scanner _ E) by lia. apply IH; [exact H|lia].
  - rewrite (Scan_mono fuel fuel' scanner _ E) by lia. exact H.
Qed.

Lemma cmdReadErr_line_is_Log (msg : string) :
  exists lvl text, cmdReadErr_line msg = Log lvl text.
Proof.
  unfold cmdReadErr_line.
  repeat match goal with
         | |- context [if ?c then _ else _] => destruct c
         end; eexists; eexists; reflexivity.
Qed.


(** ** Lines too long for the scanner *)

Lemma app_prefix (l1 x l2 y : list byte) :
  l1 ++ x = l2 ++ y -> length l1 <= length l2 -> exists m, l2 = l1 ++ m /\ x = m ++ y.
Proof.
  revert l2. induction l1 as [|a l1 IH]; intros l2 H Hl.
  - exists l2. auto.
  - destruct l2 as [|c l2]; [simpl in Hl; lia|].
    simpl in H. inversion H; subst.
    destruct (IH l2 H2) as (m & E1 & E2); [simpl in Hl; lia|].
    exists m. subst. auto.
Qed.

Lemma Scan_shift_s_err (s : Scanner) : s_err (Scan_shift s) = s_err s.
Proof.
  unfold Scan_shift.
  destruct ((0 <? s_start s) &&
            ((s_start s + length (s_buf s) =? s_len s) || (s_len s / 2 <? s_start s)));
    reflexivity.
Qed.

Lemma Scan_grow_full (r : io_Reader) (tok : option (list byte)) (b : list byte)
  (len start : nat) :
  start + length b <= len -> len <= MaxScanTokenSize -> MaxScanTokenSize <= length b ->
  Scan_grow (Scan_shift (mkScanner r tok b len start None)) = None.
Proof.
  intros Hi Hm Hb. assert (start = 0) by lia. subst start.
  unfold Scan_shift. cbn [s_r s_tok s_buf s_len s_start s_err Nat.ltb Nat.leb andb].
  unfold Scan_grow. cbn [s_r s_tok s_buf s_len s_start s_err].
  assert (E1 : (0 + length b =? len) = true) by (apply Nat.eqb_eq; lia).
  assert (E2 : (MaxScanTokenSize <=? len) = true) by (apply Nat.leb_le; lia).
  rewrite E1, E2. reflexivity.
Qed.

Section TooLong.

Variable tail : io_Reader.

(** When the data ahead begins with [MaxScanTokenSize] bytes without a line
    end, [Scan] gives up with [ErrTooLong], whatever the chunking. *)
Lemma Scan_too_long (pre rest : list byte) (n : nat) :
  forall chunks tok b len start,
    length (concat chunks) <= n -> chunked chunks ->
    start + length b <= len -> len <= MaxScanTokenSize ->
    no_NL pre -> MaxScanTokenSize <= length pre ->
    b ++ concat chunks = pre ++ rest ->
    exists fuel s',
      Scan fuel (mkScanner (map Data chunks ++ tail) tok b len start None)
      = Done (s', false) /\
      s_err s' = Some bufio_ErrTooLong.
Proof.
  induction n as [|n IH]; intros chunks tok b len start Hn Hc Hi Hm Hl Hp Heq.
  all: destruct (app_prefix b (concat chunks) pre rest Heq ltac:(lia)) as (m & E1 & E2).
  all: assert (Hnb : ~ In NL b)
         by (intros Hin; apply Hl; rewrite E1; apply in_or_app; left; exact Hin).
  all: destruct (Nat.le_gt_cases MaxScanTokenSize (length b)) as [Hfull|Hroom].
  1,3: destruct (Scan_split_none (map Data chunks ++ tail) tok b len start Hnb) as [tok' Hsp];
       exists 1; eexists; rewrite Scan_S, Hsp; cbn [s_err isSome];
       rewrite (Scan_grow_full _ tok' b len start Hi Hm Hfull);
       split; [reflexivity|]; unfold setErr; rewrite Scan_shift_s_err; reflexivity.
  - exfalso. rewrite E2, length_app in Hn. rewrite E1, length_app in Hp. lia.
  - assert (Hne : chunks <> []).
    { apply concat_nonempty. rewrite E2. intros E. apply (f_equal (@length byte)) in E.
      rewrite length_app in E. rewrite E1, length_app in Hp. simpl in E. lia. }
    destruct (Scan_more chunks tail tok b len start Hi Hm Hroom Hnb Hc Hne)
      as (tok' & len' & start' & p & chunks' & Hstep & G1 & G2 & Hpp & Hcat & Hc').
    apply nonempty_length in Hpp.
    destruct (IH chunks' tok' (b ++ p) len' start') as (fuel & s' & K1 & K2).
    + rewrite <- Hcat, length_app in Hn. lia.
    + exact Hc'.
    + exact G1.
    + exact G2.
    + exact Hl.
    + exact Hp.
    + rewrite <- app_assoc, Hcat. exact Heq.
    + exists (S fuel), s'. rewrite Hstep. auto.
Qed.

Lemma cmdReadErr_too_long (pre rest : list byte) (chunks : list (list byte)) (w : World) :
  chunked chunks -> no_NL pre -> MaxScanTokenSize <= length pre ->
  concat chunks = pre ++ rest ->
  exists F,
    forall fuel, F <= fuel ->
      cmdReadErr fuel (map Data chunks ++ tail) w
      = Done (emit w (AddError (Wrap "error reading stderr: " bufio_ErrTooLong))).
Proof.
  intros Hc Hl Hp Heq.
  destruct (Scan_too_long pre rest _ chunks None [] 0 0 (le_n _) Hc
              ltac:(simpl; lia) ltac:(lia) Hl Hp Heq) as (f0 & s' & S1 & S2).
  exists (S f0). intros fuel Hf. destruct fuel as [|fuel]; [lia|].
  unfold cmdReadErr, NewScanner.
  apply (cmdReadErr_loop_scan_error fuel _ s' w bufio_ErrTooLong).
  - apply (Scan_mono f0 fuel _ _ S1). lia.
  - unfold Scanner_Err. rewrite S2. reflexivity.
Qed.

End TooLong.


(** * Further properties of the code *)

(** ** SetParser, Start and the configuration *)

(** X1.  The parser and the demultiplexer in force are those of the last
    [SetParser] call: nothing of an earlier selection survives, so a
    streaming selection is undone by a later parser that is not the wrapped
    influx parser. *)
Theorem SetParser_last_wins (e : Execd) (p q : parser_t) :
  SetParser (SetParser e p) q = SetParser e q /\
  parser (SetParser (SetParser e p) q) = Some q /\
  (outputReader (SetParser (SetParser e p) q) = Some cmdReadOutStream_fn <->
   exists st, q = models_RunningParser (influx_Parser st)).
Proof.
  assert (H : SetParser (SetParser e p) q = SetParser e q).
  { destruct p as [st|[st|p'|st]|st]; destruct q as [st'|[st'|q'|st']|st']; reflexivity. }
  split; [exact H|]. rewrite H. split.
  - destruct q as [st'|[st'|q'|st']|st']; reflexivity.
  - split.
    + destruct q as [st'|[st'|q'|st']|st']; cbn; intros E; try discriminate.
      exists st'. reflexivity.
    + intros [st ->]. reflexivity.
Qed.

Lemma index_space (s : string) :
  strings_Contains s " " = true <-> has_space s.
Proof.
  unfold strings_Contains, has_space. induction s as [|c s IH].
  - simpl. split; [discriminate|]. intros (a & b & E). destruct a; discriminate.
  - cbn [String.index]. cbn [String.prefix].
    destruct (Ascii.ascii_dec " " c) as [<-|Hc].
    + assert (Hp : String.prefix EmptyString s = true) by (destruct s; reflexivity).
      rewrite Hp. split; [|reflexivity]. intros _. exists EmptyString, s. reflexivity.
    + destruct (String.index 0 " " s) as [n|].
      * split; [|reflexivity]. intros _. destruct (proj1 IH eq_refl) as (a & b & ->).
        exists (String c a), b. reflexivity.
      * split; [discriminate|]. intros (a & b & E).
        destruct a as [|x a]; simpl in E; inversion E; subst; [congruence|].
        assert (Hs : exists a0 b0 : string, (a ++ String " " b)%string = (a0 ++ String " " b0)%string)
          by (exists a, b; reflexivity).
        apply IH in Hs. discriminate.
Qed.

(** X2.  What [Start] does to the outside world: it calls the process's
    [Start] exactly when [process.New] succeeded and otherwise touches
    nothing; it logs the warning about a command given as one string
    exactly when that start failed and the command is a single argument
    with a space in it; it never reports to the accumulator.  A process
    that was created stays attached to the instance even when its start
    failed, and [Start] returns no error exactly when both calls
    succeeded. *)
Theorem Start_effects (e : Execd) (w : World) :
  exists evs,
    events (snd (fst (Start e w))) = events w ++ evs /\
    once_done (snd (fst (Start e w))) = once_done w /\
    (In (StartProcess (Command e)) evs <->
     exists h, process_New (Command e) (Environment e) = inl h) /\
    (In (Log Level_Warn spaces_warning) evs <->
     (exists h err, process_New (Command e) (Environment e) = inl h /\
                    process_Start h = Some err) /\
     exists c, Command e = [c] /\ has_space c) /\
    (forall ev, In ev evs ->
       ev = StartProcess (Command e) \/ ev = Log Level_Warn spaces_warning) /\
    (process (fst (fst (Start e w))) <> None <->
     exists h, process_New (Command e) (Environment e) = inl h) /\
    (snd (Start e w) = None <->
     exists h, process_New (Command e) (Environment e) = inl h /\ process_Start h = None).
Proof.
  unfold Start. destruct (process_New (Command e) (Environment e)) as [h|err0].
  2: { exists []. cbn [fst snd events once_done process set_process]. rewrite app_nil_r.
       split; [reflexivity|]. split; [reflexivity|].
       split. { split; [intros []|intros [h E]; discriminate]. }
       split. { split; [intros []|intros [(h & err & E & _) _]; discriminate]. }
       split. { intros ev []. }
       split. { split; [intros H; exfalso; apply H; reflexivity|intros [h E]; discriminate]. }
       split; [discriminate|intros (h & E & _); discriminate]. }
  assert (Hh : exists h0 : ProcHandle, @inl ProcHandle error h = inl h0)
    by (exists h; reflexivity).
  destruct (process_Start h) as [err1|] eqn:Es.
  2: { exists [StartProcess (Command e)].
       cbn [fst snd emit events once_done process set_process Command].
       split; [reflexivity|]. split; [reflexivity|].
       split. { split; [intros _; exact Hh|intros _; left; reflexivity]. }
       split. { split; [intros [H|[]]; discriminate H|].
                intros [(h' & err & E & E') _]. inversion E; subst. congruence. }
       split. { intros ev [<-|[]]. left. reflexivity. }
       split. { split; [intros _; exact Hh|intros _; discriminate]. }
       split; [intros _; exists h; auto|reflexivity]. }
  cbn [set_process Command].
  destruct ((length (Command e) =? 1) &&
            strings_Contains (hd EmptyString (Command e)) " ") eqn:Ec.
  - exists [StartProcess (Command e); Log Level_Warn spaces_warning].
    cbn [fst snd emit events once_done process set_process]. rewrite <- app_assoc.
    apply andb_true_iff in Ec. destruct Ec as [E1 E2]. apply Nat.eqb_eq in E1.
    assert (EC : exists c, Command e = [c] /\ has_space c).
    { destruct (Command e) as [|c [|c' cs]]; try discriminate.
      exists c. split; [reflexivity|]. apply index_space. exact E2. }
    split; [reflexivity|]. split; [reflexivity|].
    split. { split; [intros _; exact Hh|intros _; left; reflexivity]. }
    split. { split; [|intros _; right; left; reflexivity].
             intros _. split; [exists h, err1; auto|exact EC]. }
    split. { intros ev [<-|[<-|[]]]; auto. }
    split. { split; [intros _; exact Hh|intros _; discriminate]. }
    split; [discriminate|]. intros (h' & E & E'). inversion E; subst. congruence.
  - exists [StartProcess (Command e)].
    cbn [fst snd emit events once_done process set_process].
    split; [reflexivity|]. split; [reflexivity|].
    split. { split; [intros _; exact Hh|intros _; left; reflexivity]. }
    split. { split; [intros [H|[]]; discriminate H|].
             intros [_ (c & EC & Hs)]. exfalso. rewrite EC in Ec. cbn [length hd Nat.eqb andb] in Ec.
             apply index_space in Hs. rewrite Hs in Ec. discriminate. }
    split. { intros ev [<-|[]]. left. reflexivity. }
    split. { split; [intros _; exact Hh|intros _; discriminate]. }
    split; [discriminate|]. intros (h' & E & E'). inversion E; subst. congruence.
Qed.


Lemma cmdReadOut_record_config (e e' : Execd) (w w' : World) (data : list byte) :
  cmdReadOut_record e w data = Done (e', w') -> config_of e' = config_of e.
Proof.
  unfold cmdReadOut_record. destruct (parser e) as [p|]; [|discriminate].
  destruct (Parse p data) as [p' [ms perr]]. intros H. inversion H. reflexivity.
Qed.

Lemma cmdReadOut_loop_config (fuel : nat) :
  forall e rdr w e' w',
    cmdReadOut_loop fuel e rdr w = Done (e', w') -> config_of e' = config_of e.
Proof.
  induction fuel as [|fuel IH]; intros e rdr w e' w' H; [discriminate|].
  rewrite cmdReadOut_loop_S in H.
  destruct (ReadBytes fuel rdr NL) as [[[rdr' data] [err0|]]| |]; try discriminate.
  - destruct (errors_Is err0 io_EOF || errors_Is err0 os_ErrClosed).
    + inversion H. reflexivity.
    + apply (IH _ _ _ _ _ H).
  - destruct (cmdReadOut_record e w data) as [[e1 w1]| |] eqn:E; try discriminate.
    rewrite (IH _ _ _ _ _ H). apply (cmdReadOut_record_config _ _ _ _ _ E).
Qed.

Lemma apply_call_config (st : Execd * World) (c : Call) :
  config_of (fst (apply_call st c)) = config_of (fst st).
Proof.
  destruct st as [e w]. destruct c as [| | |fuel out|fuel out|fuel out]; cbn [apply_call fst].
  - reflexivity.
  - unfold Start. destruct (process_New (Command e) (Environment e)) as [h|err0];
      [destruct (process_Start h)|]; reflexivity.
  - unfold Stop. destruct (process e); reflexivity.
  - unfold cmdReadOut.
    destruct (cmdReadOut_loop fuel e (NewReaderSize out (BufferSize e)) w) as [[e' w']| |] eqn:E;
      [|reflexivity|reflexivity].
    apply (cmdReadOut_loop_config _ _ _ _ _ _ E).
  - destruct (cmdReadOutStream fuel out w) as [[d' w']| |]; reflexivity.
  - destruct (cmdReadErr fuel out w); reflexivity.
Qed.

(** X3.  No method of the plugin writes to its configuration: command,
    environment, buffer size, signal, restart delay and stop-on-error are,
    after [SetParser] and any sequence of calls, what they were; so [Init]
    keeps giving the answer it gave. *)
Theorem configuration_never_changes (e : Execd) (p : parser_t) (w : World)
  (calls : list Call) :
  config_of (SetParser e p) = config_of e /\
  config_of (fst (fold_left apply_call calls (SetParser e p, w))) = config_of e /\
  Init (fst (fold_left apply_call calls (SetParser e p, w))) = Init e.
Proof.
  assert (H0 : config_of (SetParser e p) = config_of e).
  { destruct p as [st|[st|p'|st]|st]; reflexivity. }
  assert (H1 : forall st : Execd * World,
            config_of (fst (fold_left apply_call calls st)) = config_of (fst st)).
  { induction calls as [|c calls IH]; intros st; [reflexivity|].
    cbn [fold_left]. rewrite IH. apply apply_call_config. }
  specialize (H1 (SetParser e p, w)). cbn [fst] in H1. rewrite H0 in H1.
  split; [exact H0|]. split; [exact H1|].
  unfold Init. unfold config_of in H1. inversion H1 as [[HC HE HB HS HR HSt]].
  rewrite HC. reflexivity.
Qed.

(** ** The batch demultiplexer: what a whole run reports *)

Lemma cmdReadOut_records_report (recs : list (list byte)) :
  forall (e : Execd) (w : World) (p : parser_t),
    parser e = Some p ->
    exists w',
      cmdReadOut_records e w recs = Done (set_parser e (Some (parser_after p recs)), w') /\
      parse_calls_of (events w') = parse_calls_of (events w) ++ recs /\
      errors_of (events w') = errors_of (events w) ++ parser_errors p recs /\
      notices (events w')
      = notices (events w) + (if negb (once_done w) && has_zero_metrics p recs then 1 else 0) /\
      once_done w' = once_done w || has_zero_metrics p recs.
Proof.
  induction recs as [|r recs IH]; intros e w p Hp.
  - exists w. cbn [cmdReadOut_records parser_after parser_errors has_zero_metrics].
    rewrite !app_nil_r, andb_false_r, orb_false_r, Nat.add_0_r.
    destruct e; simpl in *; subst; auto.
  - cbn [cmdReadOut_records]. rewrite (cmdReadOut_record_Done e w r p Hp).
    set (w1 := {| once_done := once_done w || (length (fst (snd (Parse p r))) =? 0);
                  events := events w ++
                    record_events (once_done w) r
                      (fst (snd (Parse p r))) (snd (snd (Parse p r))) |}).
    destruct (IH (set_parser e (Some (fst (Parse p r)))) w1 (fst (Parse p r)) eq_refl)
      as (w' & H1 & H2 & H3 & H4 & H5).
    exists w'. rewrite H1, H2, H3, H4, H5. unfold w1. cbn [events once_done].
    rewrite set_parser_twice, parse_calls_of_app, errors_of_app, notices_app.
    rewrite errors_of_record_events, notices_record_events.
    cbn [parser_after parser_errors has_zero_metrics].
    destruct (Parse p r) as [p' [ms perr]]. cbn [fst snd].
    unfold record_events. rewrite !parse_calls_of_app, parse_calls_of_AddMetric.
    split; [reflexivity|]. split.
    { rewrite <- !app_assoc.
      destruct perr; destruct ((length ms =? 0) && negb (once_done w)); reflexivity. }
    split; [rewrite <- app_assoc; reflexivity|].
    split.
    { destruct (once_done w); destruct (length ms =? 0);
        destruct (has_zero_metrics p' recs); cbn; lia. }
    rewrite orb_assoc. reflexivity.
Qed.

Section BatchReports.

Variables (lines : list (list byte)) (last : list byte) (chunks : list (list byte)).
Variables (e : Execd) (w : World) (p : parser_t).
Hypothesis parser_set : parser e = Some p.
Hypothesis lines_ok : Forall no_NL lines.
Hypothesis last_ok : no_NL last.
Hypothesis chunks_ok : chunked chunks.
Hypothesis stream : concat chunks = concat (map record lines) ++ last.

Lemma cmdReadOut_run_report :
  exists F w',
    (forall fuel, F <= fuel ->
       cmdReadOut fuel e (map Data chunks) w
       = Done (set_parser e (Some (parser_after p (map record lines))), w')) /\
    parse_calls_of (events w') = parse_calls_of (events w) ++ map record lines /\
    errors_of (events w') = errors_of (events w) ++ parser_errors p (map record lines) /\
    notices (events w')
    = notices (events w)
      + (if negb (once_done w) && has_zero_metrics p (map record lines) then 1 else 0) /\
    once_done w' = once_done w || has_zero_metrics p (map record lines).
Proof.
  destruct (NewReaderSize_spec [] (BufferSize e)) as [_ Hsz].
  destruct (cmdReadOut_loop_script _ [] Hsz lines last chunks e w p parser_set lines_ok
              last_ok chunks_ok I eq_refl stream) as (F & e' & w' & R & K).
  destruct (cmdReadOut_records_report (map record lines) e w p parser_set)
    as (w2 & D1 & D2 & D3 & D4 & D5).
  rewrite D1 in R. inversion R; subst e' w'.
  exists F, w2. split; [|auto].
  intros fuel Hf. unfold cmdReadOut, NewReaderSize.
  rewrite <- (app_nil_r (map Data chunks)). rewrite (K fuel Hf). reflexivity.
Qed.

(** X4.  A stream that ends, with an unterminated rest after its last
    complete record or without: the parser is handed the complete records
    and nothing else, so the unterminated rest is dropped; the errors
    reported are the wrapped errors of the parser, one for each record it
    fails on and in order, and nothing is reported for the end of the
    stream. *)
Theorem cmdReadOut_at_end_of_stream :
  exists F e' w',
    (forall fuel, F <= fuel -> cmdReadOut fuel e (map Data chunks) w = Done (e', w')) /\
    parser e' = Some (parser_after p (map record lines)) /\
    parse_calls_of (events w') = parse_calls_of (events w) ++ map record lines /\
    errors_of (events w') = errors_of (events w) ++ parser_errors p (map record lines).
Proof.
  destruct cmdReadOut_run_report as (F & w' & H1 & H2 & H3 & _).
  exists F, (set_parser e (Some (parser_after p (map record lines)))), w'.
  split; [exact H1|]. split; [reflexivity|]. auto.
Qed.

(** X5.  In a run of the batch demultiplexer the zero-metrics notice is
    logged exactly when the once-flag was unset and the parser returned no
    metric for one of the records, and then once; the flag is set afterwards
    exactly when it was set before or that happened. *)
Theorem cmdReadOut_notice_exactly :
  exists F e' w',
    (forall fuel, F <= fuel -> cmdReadOut fuel e (map Data chunks) w = Done (e', w')) /\
    notices (events w')
    = notices (events w)
      + (if negb (once_done w) && has_zero_metrics p (map record lines) then 1 else 0) /\
    once_done w' = once_done w || has_zero_metrics p (map record lines).
Proof.
  destruct cmdReadOut_run_report as (F & w' & H1 & _ & _ & H4 & H5).
  exists F, (set_parser e (Some (parser_after p (map record lines)))), w'. auto.
Qed.

End BatchReports.


(** X6.  A read error that is no end of stream, in the middle of the data:
    the loop handles the records before it, drops the unterminated bytes
    read before the error, reports the error, and goes on with the bytes
    after the error as the beginning of a new record, up to the end of the
    stream. *)
Theorem cmdReadOut_resumes_after_read_error
  (lines1 lines2 : list (list byte)) (last1 last2 : list byte)
  (chunks1 chunks2 : list (list byte)) (err : error)
  (e : Execd) (w : World) (p : parser_t) :
  parser e = Some p ->
  Forall no_NL lines1 -> no_NL last1 -> chunked chunks1 ->
  concat chunks1 = concat (map record lines1) ++ last1 ->
  Forall no_NL lines2 -> no_NL last2 -> chunked chunks2 ->
  concat chunks2 = concat (map record lines2) ++ last2 ->
  error_eqb err bufio_ErrBufferFull = false ->
  errors_Is err io_EOF || errors_Is err os_ErrClosed = false ->
  exists F e1 w1 e' w',
    cmdReadOut_records e w (map record lines1) = Done (e1, w1) /\
    cmdReadOut_records e1 (emit w1 (AddError (Wrap "error reading stdout: " err)))
      (map record lines2) = Done (e', w') /\
    forall fuel, F <= fuel ->
      cmdReadOut fuel e (map Data chunks1 ++ Fail err :: map Data chunks2) w = Done (e', w').
Proof.
  intros Hp Hl1 Hlast1 Hc1 Heq1 Hl2 Hlast2 Hc2 Heq2 He Hn.
  destruct (NewReaderSize_spec [] (BufferSize e)) as [_ Hsz].
  destruct (cmdReadOut_loop_script _ (Fail err :: map Data chunks2 ++ []) Hsz lines1 last1
              chunks1 e w p Hp Hl1 Hlast1 Hc1 I He Heq1) as (F1 & e1 & w1 & R1 & K1).
  destruct (cmdReadOut_records_Done (map record lines1) e w p Hp) as (evs & o & D1 & _).
  assert (Hp1 : parser e1 = Some (parser_after p (map record lines1))).
  { rewrite D1 in R1. inversion R1. reflexivity. }
  destruct (cmdReadOut_loop_script _ [] Hsz lines2 last2 chunks2 e1
              (emit w1 (AddError (Wrap "error reading stdout: " err)))
              _ Hp1 Hl2 Hlast2 Hc2 I eq_refl Heq2) as (F2 & e' & w' & R2 & K2).
  exists (F1 + F2 + length lines1 + 1), e1, w1, e', w'.
  split; [exact R1|]. split; [exact R2|].
  intros fuel Hf. unfold cmdReadOut, NewReaderSize.
  rewrite <- (app_nil_r (map Data chunks2)).
  rewrite (K1 fuel ltac:(lia)). cbn [tail_err tail_rest]. rewrite Hn.
  rewrite (K2 (fuel - length lines1 - 1) ltac:(lia)). reflexivity.
Qed.

(** X7.  An instance on which [SetParser] was never called: the batch
    demultiplexer returns quietly when the stream ends before a complete
    record has come, and panics on the nil parser at the first complete
    record. *)
Theorem cmdReadOut_without_parser
  (line rest last : list byte) (chunks chunks0 : list (list byte))
  (tail : io_Reader) (e : Execd) (w : World) :
  parser e = None ->
  no_NL line -> chunked chunks -> concat chunks = record line ++ rest ->
  no_NL last -> chunked chunks0 -> concat chunks0 = last ->
  exists F,
    forall fuel, F <= fuel ->
      cmdReadOut fuel e (map Data chunks ++ tail) w = Panic /\
      cmdReadOut fuel e (map Data chunks0) w = Done (e, w).
Proof.
  intros Hp Hl Hc Heq Hlast Hc0 Heq0.
  destruct (NewReaderSize_spec [] (BufferSize e)) as [_ Hsz].
  unfold record in Heq. rewrite <- app_assoc in Heq.
  destruct (ReadBytes_line _ tail Hsz line rest chunks [] Hc ltac:(simpl; lia) Hl Heq)
    as (f0 & chunks' & b1 & R & _).
  destruct (cmdReadOut_loop_tail _ [] Hsz last chunks0 [] e w Hc0 ltac:(simpl; lia) I eq_refl
              Hlast Heq0) as (F0 & T).
  exists (S (Nat.max f0 F0)). intros fuel Hf. destruct fuel as [|fuel]; [lia|]. split.
  - unfold cmdReadOut, NewReaderSize.
    rewrite cmdReadOut_loop_S, (ReadBytes_mono f0 fuel _ NL _ R) by lia.
    unfold cmdReadOut_record. rewrite Hp. reflexivity.
  - unfold cmdReadOut, NewReaderSize. rewrite <- (app_nil_r (map Data chunks0)).
    rewrite (T (S fuel)) by lia. reflexivity.
Qed.

(** ** The streaming demultiplexer and the router: what they never do *)

Lemma Forall_app_one (P : Event -> Prop) (l : list Event) (ev : Event) :
  Forall P l -> P ev -> Forall P (l ++ [ev]).
Proof.
  intros Hl He. apply Forall_app. split; [exact Hl|]. constructor; [exact He|constructor].
Qed.

Lemma cmdReadOutStream_loop_sink (fuel : nat) :
  forall d w d' w',
    cmdReadOutStream_loop fuel d w = Done (d', w') ->
    once_done w' = once_done w /\
    exists evs, events w' = events w ++ evs /\ Forall is_sink_event evs.
Proof.
  induction fuel as [|fuel IH]; intros d w d' w' H; [discriminate|].
  cbn [cmdReadOutStream_loop] in H.
  assert (Hstep : forall ev, is_sink_event ev ->
            cmdReadOutStream_loop fuel (fst (Next d)) (emit w ev) = Done (d', w') ->
            once_done w' = once_done w /\
            exists evs, events w' = events w ++ evs /\ Forall is_sink_event evs).
  { intros ev Hev H'. destruct (IH _ _ _ _ H') as [H1 (evs & H2 & H3)].
    split; [exact H1|]. exists (ev :: evs). cbn [emit events] in H2.
    rewrite <- app_assoc in H2. split; [exact H2|]. constructor; assumption. }
  destruct (Next d) as [d1 [m|err0]]; cbn [fst] in Hstep.
  - apply (Hstep (AddMetric m) I H).
  - destruct (errors_Is err0 influx_EOF).
    + inversion H; subst. split; [reflexivity|]. exists []. rewrite app_nil_r. auto.
    + destruct (errors_As_ParseError err0) as [pe|].
      * apply (Hstep (AddError pe) I H).
      * inversion H; subst. split; [reflexivity|]. exists [AddError err0].
        split; [reflexivity|]. constructor; [exact I|constructor].
Qed.

(** X8.  The streaming demultiplexer only ever calls the accumulator: it
    never hands anything to the configured parser, never logs, and leaves
    the once-flag alone, so the zero-metrics notice cannot come from it. *)
Theorem cmdReadOutStream_only_accumulates
  (fuel : nat) (out : io_Reader) (w w' : World) (d' : Decoder) :
  cmdReadOutStream fuel out w = Done (d', w') ->
  once_done w' = once_done w /\
  exists evs,
    events w' = events w ++ evs /\ Forall is_sink_event evs /\
    parse_calls_of evs = [] /\ notices evs = 0.
Proof.
  intros H. destruct (cmdReadOutStream_loop_sink fuel _ w d' w' H) as [H1 (evs & H2 & H3)].
  split; [exact H1|]. exists evs. split; [exact H2|]. split; [exact H3|].
  clear H2. induction H3 as [|ev evs Hev _ IH]; [auto|].
  destruct IH as [I1 I2]. destruct ev; try contradiction; cbn; auto.
Qed.

Lemma cmdReadErr_loop_shape (fuel : nat) :
  forall scanner w w',
    cmdReadErr_loop fuel scanner w = Done w' ->
    once_done w' = once_done w /\
    exists logs last,
      events w' = events w ++ logs ++ last /\ Forall is_log_event logs /\
      (last = [] \/
       exists err, last = [AddError (Wrap "error reading stderr: " err)] /\ err <> io_EOF).
Proof.
  induction fuel as [|fuel IH]; intros scanner w w' H; [discriminate|].
  rewrite cmdReadErr_loop_S in H.
  destruct (Scan fuel scanner) as [[s' [|]]| |]; try discriminate.
  - destruct (IH _ _ _ H) as [H1 (logs & last & H2 & H3 & H4)].
    split; [exact H1|].
    destruct (cmdReadErr_line_is_Log (Scanner_Text s')) as (lvl & text & L).
    rewrite L in H2. exists (Log lvl text :: logs), last.
    cbn [emit events] in H2. rewrite <- app_assoc in H2.
    split; [exact H2|]. split; [constructor; [exact I|exact H3]|exact H4].
  - unfold Scanner_Err in H. destruct (s_err s') as [err0|].
    + destruct (error_eqb err0 io_EOF) eqn:E.
      * inversion H; subst. split; [reflexivity|]. exists [], [].
        rewrite !app_nil_r. auto.
      * inversion H; subst. split; [reflexivity|].
        exists [], [AddError (Wrap "error reading stderr: " err0)].
        split; [reflexivity|]. split; [constructor|]. right. exists err0.
        split; [reflexivity|]. intros ->. discriminate.
    + inversion H; subst. split; [reflexivity|]. exists [], [].
      rewrite !app_nil_r. auto.
Qed.

(** X9.  Whatever the stream and however it fails, a run of the router
    consists of log calls followed by at most one report to the
    accumulator, which is then its last call and never is for [io.EOF]; the
    router adds no metric and leaves the once-flag alone. *)
Theorem cmdReadErr_logs_then_one_error (fuel : nat) (out : io_Reader) (w w' : World) :
  cmdReadErr fuel out w = Done w' ->
  once_done w' = once_done w /\
  exists logs last,
    events w' = events w ++ logs ++ last /\ Forall is_log_event logs /\
    (last = [] \/
     exists err, last = [AddError (Wrap "error reading stderr: " err)] /\ err <> io_EOF).
Proof.
  intros H. unfold cmdReadErr in H.
  destruct (cmdReadErr_loop_shape fuel (NewScanner out) w w' H) as [H1 H2].
  split; [exact H1|exact H2].
Qed.


(** X10.  A line of [MaxScanTokenSize] bytes or more stops the router for
    good: the lines before it are routed, the scanner's [ErrTooLong] is
    reported, and nothing of what follows in the stream is routed,
    whatever it is and however the reads are cut. *)
Theorem cmdReadErr_stops_at_long_line
  (lines : list (list byte)) (pre rest : list byte) (chunks : list (list byte))
  (tail : io_Reader) (w : World) :
  Forall short_line lines -> no_NL pre -> MaxScanTokenSize <= length pre ->
  chunked chunks -> concat chunks = concat (map record lines) ++ pre ++ rest ->
  exists F,
    forall fuel, F <= fuel ->
      cmdReadErr fuel (map Data chunks ++ tail) w
      = Done (add_events w
                (stderr_events lines []
                 ++ [AddError (Wrap "error reading stderr: " bufio_ErrTooLong)])).
Proof.
  intros Hl Hpre Hlen Hc Heq.
  destruct (cmdReadErr_loop_lines tail (pre ++ rest) lines chunks None [] 0 0 w Hl Hc)
    as (F1 & chunks' & tok' & b' & len' & start' & K1 & K2 & K3 & K4 & K5);
    [simpl; lia|lia|exact Heq|].
  destruct (Scan_too_long tail pre rest _ chunks' tok' b' len' start' (le_n _) K2 K3 K4
              Hpre Hlen K5) as (f0 & s' & S1 & S2).
  exists (F1 + S f0 + length lines). intros fuel Hf.
  unfold cmdReadErr, NewScanner. rewrite K1 by lia.
  destruct (fuel - length lines) as [|fuel'] eqn:Ef; [lia|].
  rewrite (cmdReadErr_loop_scan_error fuel' _ s' _ bufio_ErrTooLong).
  - unfold stderr_events. rewrite app_nil_r.
    unfold add_events, emit. cbn [events once_done]. rewrite <- app_assoc. reflexivity.
  - apply (Scan_mono f0 fuel' _ _ S1). lia.
  - unfold Scanner_Err. rewrite S2. reflexivity.
Qed.

(** ** The router's switch at its edges *)

Lemma prefix_length (p s : string) :
  String.prefix p s = true -> String.length p <= String.length s.
Proof.
  intros H. destruct (prefix_split p s H) as [rest ->].
  clear H. induction p as [|a p IH]; simpl; lia.
Qed.

Lemma level_prefixed_false (msg : string) :
  level_prefixed msg = false ->
  cmdReadErr_line msg = Log Level_Error ("stderr: " ++ strconv_Quote msg)%string.
Proof.
  unfold level_prefixed, cmdReadErr_line. intros H.
  repeat (apply orb_false_iff in H; destruct H as [H ?]).
  repeat match goal with E : strings_HasPrefix _ _ = false |- _ => rewrite E; clear E end.
  reflexivity.
Qed.

(** X11.  A line of fewer than three bytes, the empty line included, has
    none of the prefixes: the slice [msg[3:]] is never taken of it and it
    goes to Error, quoted. *)
Theorem cmdReadErr_line_short (msg : string) :
  String.length msg < 3 ->
  level_prefixed msg = false /\
  cmdReadErr_line msg = Log Level_Error ("stderr: " ++ strconv_Quote msg)%string.
Proof.
  intros Hlen.
  assert (H : level_prefixed msg = false).
  { unfold level_prefixed, strings_HasPrefix.
    repeat match goal with
           | |- context [String.prefix ?p msg] =>
               let E := fresh in
               destruct (String.prefix p msg) eqn:E;
               [apply prefix_length in E; simpl in E; lia|]
           end.
    reflexivity. }
  split; [exact H|]. apply level_prefixed_false. exact H.
Qed.

Lemma appendEscapedRune_plain (c : ascii) :
  plain_ascii c = true ->
  (nat_of_ascii c <? 128) = true /\ appendEscapedRune c = str1 c.
Proof.
  unfold plain_ascii, appendEscapedRune. intros H.
  repeat (apply andb_true_iff in H; destruct H as [H ?]).
  repeat match goal with E : negb _ = true |- _ => apply negb_true_iff in E end.
  repeat match goal with E : (_ =? _) = false |- _ => rewrite E; clear E end.
  cbn [orb]. 
  match goal with E : (32 <=? _) = true |- _ => rewrite E end.
  match goal with E : (_ <=? 126) = true |- _ => rewrite E; apply Nat.leb_le in E end.
  split; [apply Nat.ltb_lt; lia|reflexivity].
Qed.

Lemma Quote_loop_plain (s : string) :
  plain_string s = true -> Quote_loop 0 s = s.
Proof.
  induction s as [|c s IH]; intros H; [reflexivity|].
  cbn [plain_string] in H. apply andb_true_iff in H. destruct H as [Hc Hs].
  destruct (appendEscapedRune_plain c Hc) as [H1 H2].
  cbn [Quote_loop]. rewrite H1, H2, (IH Hs). reflexivity.
Qed.

(** X12.  A line without level prefix made of printable ASCII other than
    the double quote and the backslash is logged to Error as it is, between
    double quotes after [stderr: ]: quoting changes nothing in it. *)
Theorem cmdReadErr_line_plain (msg : string) :
  level_prefixed msg = false -> plain_string msg = true ->
  cmdReadErr_line msg
  = Log Level_Error ("stderr: " ++ String quote_char (msg ++ str1 quote_char))%string.
Proof.
  intros Hp Hs. rewrite (level_prefixed_false msg Hp).
  unfold strconv_Quote. rewrite (Quote_loop_plain msg Hs). reflexivity.
Qed.

End Execd.

Arguments Parse_call {Metric} data.
Arguments AddError {Metric} err.
Arguments Log {Metric} lvl msg.
Arguments StartProcess {Metric} command.

(** * The model at work *)

Ltac no_NL_tac :=
  unfold no_NL; vm_compute;
  let H := fresh in
  intros H; repeat (destruct H as [H|H]; [discriminate H|]); exact H.

Ltac lines_tac := repeat (constructor; [no_NL_tac|]); constructor.

Ltac chunked_tac := repeat (constructor; [discriminate|]); constructor.

(** C1 at work: two records delivered in three pieces that cut them
    anywhere. *)
Lemma cmdReadOut_records_any_split_witness :
  let e := SetParser (new_Execd unit unit unit) (plugin_Parser tt) in
  let w := new_World (list byte) in
  exists F e' w',
    (forall fuel, F <= fuel ->
       cmdReadOut line_Parse example_notice fuel e (map Data example_chunks) w = Done (e', w') /\
       cmdReadOut line_Parse example_notice fuel e (unsplit (concat example_chunks)) w
       = Done (e', w')) /\
    cmdReadOut_records line_Parse example_notice e w (map record example_lines) = Done (e', w') /\
    parse_calls_of (events w') = parse_calls_of (events w) ++ map record example_lines /\
    metrics_of (events w')
    = metrics_of (events w) ++ parser_metrics line_Parse (plugin_Parser tt) (map record example_lines).
Proof.
  intros e w.
  apply (@cmdReadOut_records_any_split (list byte) unit unit line_Parse example_notice unit
           example_lines example_chunks e w (plugin_Parser tt)).
  - reflexivity.
  - lines_tac.
  - chunked_tac.
  - reflexivity.
Defined.

(** C6 at work: a record, the beginning of a line, then a read error that
    is not an end of stream: the error is reported and the loop reads on. *)
Lemma cmdReadOut_read_error_witness :
  let e := SetParser (new_Execd unit unit unit) (plugin_Parser tt) in
  let w := new_World (list byte) in
  let err := errors_New "input/output error" in
  let t := [Data (bytes "m v=2" ++ [NL])] in
  exists F e' w',
    cmdReadOut_records line_Parse example_notice e w (map record [bytes "m v=1"])
    = Done (e', w') /\
    forall fuel, F <= fuel ->
      cmdReadOut line_Parse example_notice fuel e
        (map Data example_cut_chunks ++ Fail err :: t) w
      = cmdReadOut_loop line_Parse example_notice (fuel - 1 - 1) e'
          (NewReaderSize t (BufferSize e))
          (emit w' (AddError (Wrap "error reading stdout: " err))).
Proof.
  intros e w err t.
  apply (@cmdReadOut_read_error (list byte) unit unit line_Parse example_notice unit
           [bytes "m v=1"] (bytes "m v") example_cut_chunks err t e w (plugin_Parser tt)).
  - reflexivity.
  - lines_tac.
  - no_NL_tac.
  - chunked_tac.
  - reflexivity.
  - reflexivity.
Defined.

(** C7 at work: a malformed record between two well-formed ones. *)
Lemma cmdReadOut_parse_error_continues_witness :
  let e := SetParser (new_Execd unit unit unit) (plugin_Parser tt) in
  let w := new_World (list byte) in
  exists F e' w' evs_pre evs_bad evs_goods,
    (forall fuel, F <= fuel ->
       cmdReadOut line_Parse example_notice fuel e (map Data example_bad_chunks) w
       = Done (e', w')) /\
    events w' = events w ++ evs_pre ++ evs_bad ++ evs_goods /\
    parse_calls_of evs_bad = [record (bytes "oops")] /\
    errors_of evs_bad = [Wrap "parse error: " (errors_New "bad line")] /\
    parse_calls_of evs_goods = map record [bytes "m v=2"] /\
    metrics_of evs_goods = [record (bytes "m v=2")].
Proof.
  intros e w.
  apply (@cmdReadOut_parse_error_continues (list byte) unit unit line_Parse example_notice unit
           [bytes "m v=1"] [bytes "m v=2"] (bytes "oops") example_bad_chunks e w
           (plugin_Parser tt) (errors_New "bad line")).
  - reflexivity.
  - lines_tac.
  - chunked_tac.
  - reflexivity.
  - reflexivity.
Defined.

(** C10 at work: a record with a parse error and no metric: the error is
    reported, then the notice is logged. *)
Lemma cmdReadOut_parse_error_keeps_metrics_witness :
  let e := SetParser (new_Execd unit unit unit) (plugin_Parser tt) in
  let w := new_World (list byte) in
  let data := record (bytes "oops") in
  let w' := {| once_done := true;
               events := [Parse_call data;
                          AddError (Wrap "parse error: " (errors_New "bad line"));
                          Log Level_Debug example_notice] |} in
  cmdReadOut_record line_Parse example_notice e w data = Done (e, w') /\
  cmdReadOut_loop line_Parse example_notice 4 e (NewReaderSize [Data data] 0) w
  = cmdReadOut_loop line_Parse example_notice 3 e (mkReader [] 16 [] None) w'.
Proof.
  intros e w data w'.
  apply (@cmdReadOut_parse_error_keeps_metrics (list byte) unit unit line_Parse example_notice
           unit 3 e (NewReaderSize [Data data] 0) (mkReader [] 16 [] None) w data
           (plugin_Parser tt) (errors_New "bad line")).
  - reflexivity.
  - reflexivity.
  - reflexivity.
Defined.

(** C2 at work: a metric, a parse error, a metric, then an error that is
    not a parse error: one report for it and the loop is over; the metric
    that would have come next is never asked for. *)
Lemma cmdReadOutStream_on_error_witness :
  cmdReadOutStream script_of script_Next 4 example_stream (new_World (list byte))
  = Done ([inl (bytes "m v=3")],
          {| once_done := false;
             events := [AddMetric (bytes "m v=1"); AddError (influx_ParseError "bad line");
                        AddMetric (bytes "m v=2"); AddError (errors_New "broken pipe")] |}).
Proof.
  refine (proj2 (proj2
    (@cmdReadOutStream_on_error (list byte) (list (list byte + error)) script_of script_Next
       example_stream
       [inl (bytes "m v=1"); inr (influx_ParseError "bad line"); inl (bytes "m v=2")]
       [inr (errors_New "broken pipe"); inl (bytes "m v=3")]
       [inl (bytes "m v=3")] (errors_New "broken pipe") (new_World (list byte)) _ _ _))
    eq_refl eq_refl 4 _).
  - repeat (eexists; split; [reflexivity|]). reflexivity.
  - repeat constructor; discriminate.
  - reflexivity.
  - simpl. lia.
Defined.

(** C3 at work: two instances, each reading blank lines, interleaved: one
    notice in all. *)
Lemma once_notice_example :
  let e := SetParser (new_Execd unit unit unit) (plugin_Parser tt) in
  let inst := Some (e, NewReaderSize [Data [NL; NL]] 0) in
  let w' := snd (process_run line_Parse example_notice [(0, 4); (1, 4); (0, 4); (1, 4)]
                   ([inst; inst], new_World (list byte))) in
  notices example_notice (events w') = 1 /\ length (parse_calls_of (events w')) = 4.
Proof.
  vm_compute. split; reflexivity.
Qed.

(** C8 at work: lines that arrive in pieces, a carriage return before a
    line end, an unterminated last line. *)
Lemma cmdReadErr_lines_example :
  exists F,
    forall fuel, F <= fuel ->
      cmdReadErr (fun _ : string => (1, EmptyString)) fuel
        (map Data example_stderr_chunks ++ []) (new_World (list byte))
      = Done {| once_done := false;
                events := [Log Level_Warn "disk full";
                           Log Level_Error
                             ("stderr: " ++ String quote_char ("custom text" ++ str1 quote_char));
                           Log Level_Debug "last"] |}.
Proof.
  refine (proj1 (@cmdReadErr_lines_and_scan_error (list byte) (fun _ => (1, EmptyString)))
            [bytes "W! disk full" ++ [CR]; bytes "custom text"] (bytes "D! last")
            example_stderr_chunks [] (new_World (list byte)) _ _ _ I _).
  - repeat (constructor; [split; [no_NL_tac|apply Nat.ltb_lt; vm_compute; reflexivity]|]).
    constructor.
  - split; [no_NL_tac|apply Nat.ltb_lt; vm_compute; reflexivity].
  - chunked_tac.
  - reflexivity.
Defined.

(** A line of [MaxScanTokenSize] bytes is no logical line for the router:
    the scanner gives up with [bufio.ErrTooLong]; the line is not logged,
    an error is reported instead. *)
Lemma cmdReadErr_long_line_fails :
  let q := fun _ : string => (1, EmptyString) in
  let w := new_World (list byte) in
  let line := repeat "a"%byte MaxScanTokenSize in
  no_NL line /\
  (exists F, forall fuel, F <= fuel ->
     cmdReadErr q fuel (map Data [record line] ++ []) w
     = Done (emit w (AddError (Wrap "error reading stderr: " bufio_ErrTooLong)))) /\
  ~ (exists F, forall fuel, F <= fuel ->
       cmdReadErr q fuel (map Data [record line] ++ []) w
       = Done (add_events w (stderr_events (list byte) q [line] []
                             ++ scan_error_events (list byte) (tail_err [])))).
Proof.
  intros q w line.
  assert (Hn : no_NL line).
  { intros Hin. apply repeat_spec in Hin. discriminate Hin. }
  assert (Hlen : MaxScanTokenSize <= length line).
  { unfold line. rewrite repeat_length. apply le_n. }
  clearbody line.
  assert (Hc : chunked [record line]).
  { constructor; [|constructor]. unfold record. destruct line; discriminate. }
  assert (Heq : concat [record line] = line ++ [NL]).
  { simpl. apply app_nil_r. }
  destruct (cmdReadErr_too_long (list byte) q [] line [NL] [record line] w Hc Hn Hlen Heq)
    as (F1 & T).
  split; [exact Hn|]. split; [exists F1; exact T|].
  intros [F H]. specialize (H (Nat.max F F1) (Nat.le_max_l F F1)).
  rewrite (T (Nat.max F F1) (Nat.le_max_r F F1)) in H.
  assert (Hev : forall a b : World (list byte), Done a = Done b -> events a = events b).
  { intros a b Hab. injection Hab. intros ->. reflexivity. }
  apply Hev in H. unfold emit, add_events, stderr_events in H. cbn [events map app] in H.
  destruct (cmdReadErr_line_is_Log (list byte) q (string_of_list_byte (dropCR line)))
    as (lvl & text & L).
  rewrite L in H. subst w. cbn [new_World events app] in H. discriminate H.
Qed.

(** The runs above, evaluated: what reaches the sink. *)
Lemma cmdReadOut_examples :
  let e := SetParser (new_Execd unit unit unit) (plugin_Parser tt) in
  let w := new_World (list byte) in
  let r1 := record (bytes "m v=1") in
  let r2 := record (bytes "m v=2") in
  let io_err := errors_New "input/output error" in
  let closed := Wrap "read |0: " os_ErrClosed in
  cmdReadOut line_Parse example_notice 9 e (map Data example_chunks) w
  = Done (e, {| once_done := false;
                events := [Parse_call r1; AddMetric r1; Parse_call r2; AddMetric r2] |}) /\
  cmdReadOut line_Parse example_notice 9 e
    (map Data example_cut_chunks ++ Fail io_err :: [Data r2]) w
  = Done (e, {| once_done := false;
                events := [Parse_call r1; AddMetric r1;
                           AddError (Wrap "error reading stdout: " io_err);
                           Parse_call r2; AddMetric r2] |}) /\
  cmdReadOut line_Parse example_notice 9 e
    (map Data example_cut_chunks ++ Fail closed :: [Data r2]) w
  = Done (e, {| once_done := false; events := [Parse_call r1; AddMetric r1] |}).
Proof.
  vm_compute. repeat split; reflexivity.
Qed.

(** * The further properties at work *)

(** X4 at work: three records, the second blank and the third malformed,
    and an unterminated rest. *)
Lemma cmdReadOut_at_end_of_stream_witness :
  let e := SetParser (new_Execd unit unit unit) (plugin_Parser tt) in
  let w := new_World (list byte) in
  exists F e' w',
    (forall fuel, F <= fuel ->
       cmdReadOut line_Parse example_notice fuel e (map Data example_mixed_chunks) w
       = Done (e', w')) /\
    parser e' = Some (parser_after line_Parse (plugin_Parser tt) (map record example_mixed_lines)) /\
    parse_calls_of (events w') = parse_calls_of (events w) ++ map record example_mixed_lines /\
    errors_of (events w')
    = errors_of (events w)
      ++ parser_errors line_Parse (plugin_Parser tt) (map record example_mixed_lines).
Proof.
  intros e w.
  apply (@cmdReadOut_at_end_of_stream (list byte) unit unit line_Parse example_notice unit
           example_mixed_lines (bytes "m v") example_mixed_chunks e w (plugin_Parser tt)).
  - reflexivity.
  - lines_tac.
  - no_NL_tac.
  - chunked_tac.
  - reflexivity.
Defined.

(** X5 at work: the blank record yields no metric, the flag is unset: one
    notice. *)
Lemma cmdReadOut_notice_exactly_witness :
  let e := SetParser (new_Execd unit unit unit) (plugin_Parser tt) in
  let w := new_World (list byte) in
  exists F e' w',
    (forall fuel, F <= fuel ->
       cmdReadOut line_Parse example_notice fuel e (map Data example_mixed_chunks) w
       = Done (e', w')) /\
    notices example_notice (events w') = notices example_notice (events w) + 1 /\
    once_done w' = true.
Proof.
  intros e w.
  apply (@cmdReadOut_notice_exactly (list byte) unit unit line_Parse example_notice unit
           example_mixed_lines (bytes "m v") example_mixed_chunks e w (plugin_Parser tt)).
  - reflexivity.
  - lines_tac.
  - no_NL_tac.
  - chunked_tac.
  - reflexivity.
Defined.

(** X6 at work: the read error cuts the line [m v=7]: its first half is
    dropped, its second half is parsed as a record of its own. *)
Lemma cmdReadOut_resumes_after_read_error_witness :
  let e := SetParser (new_Execd unit unit unit) (plugin_Parser tt) in
  let w := new_World (list byte) in
  let err := errors_New "input/output error" in
  exists F e1 w1 e' w',
    cmdReadOut_records line_Parse example_notice e w (map record [bytes "m v=1"])
    = Done (e1, w1) /\
    cmdReadOut_records line_Parse example_notice e1
      (emit w1 (AddError (Wrap "error reading stdout: " err)))
      (map record [bytes "=7"; bytes "m v=2"]) = Done (e', w') /\
    forall fuel, F <= fuel ->
      cmdReadOut line_Parse example_notice fuel e
        (map Data example_cut_chunks ++ Fail err :: map Data example_resumed_chunks) w
      = Done (e', w').
Proof.
  intros e w err.
  apply (@cmdReadOut_resumes_after_read_error (list byte) unit unit line_Parse example_notice
           unit [bytes "m v=1"] [bytes "=7"; bytes "m v=2"] (bytes "m v") []
           example_cut_chunks example_resumed_chunks err e w (plugin_Parser tt)).
  - reflexivity.
  - lines_tac.
  - no_NL_tac.
  - chunked_tac.
  - reflexivity.
  - lines_tac.
  - no_NL_tac.
  - chunked_tac.
  - reflexivity.
  - reflexivity.
  - reflexivity.
Defined.

(** X7 at work, on the instance as [init] registers it. *)
Lemma cmdReadOut_without_parser_witness :
  let e := new_Execd unit unit unit in
  let w := new_World (list byte) in
  exists F,
    forall fuel, F <= fuel ->
      cmdReadOut line_Parse example_notice fuel e (map Data example_chunks ++ []) w = Panic /\
      cmdReadOut line_Parse example_notice fuel e (map Data [bytes "m v"]) w = Done (e, w).
Proof.
  intros e w.
  apply (@cmdReadOut_without_parser (list byte) unit unit line_Parse example_notice unit
           (bytes "m v=1") (record (bytes "m v=2")) (bytes "m v") example_chunks
           [bytes "m v"] [] e w).
  - reflexivity.
  - no_NL_tac.
  - chunked_tac.
  - reflexivity.
  - no_NL_tac.
  - chunked_tac.
  - reflexivity.
Defined.

(** X8 at work. *)
Lemma cmdReadOutStream_only_accumulates_witness :
  let w := new_World (list byte) in
  let w' := {| once_done := false;
               events := [AddMetric (bytes "m v=1"); AddError (influx_ParseError "bad line");
                          AddMetric (bytes "m v=2"); AddError (errors_New "broken pipe")] |} in
  once_done w' = once_done w /\
  exists evs,
    events w' = events w ++ evs /\ Forall (@is_sink_event (list byte)) evs /\
    parse_calls_of evs = [] /\ notices example_notice evs = 0.
Proof.
  intros w w'.
  apply (@cmdReadOutStream_only_accumulates (list byte) example_notice
           (list (list byte + error)) script_of script_Next 4 example_stream w w'
           [inl (bytes "m v=3")]).
  reflexivity.
Defined.

(** X9 at work. *)
Lemma cmdReadErr_logs_then_one_error_witness :
  let w := new_World (list byte) in
  let w' := {| once_done := false;
               events := [Log Level_Warn "disk full";
                          AddError (Wrap "error reading stderr: " (errors_New "broken pipe"))] |} in
  once_done w' = once_done w /\
  exists logs last,
    events w' = events w ++ logs ++ last /\ Forall (@is_log_event (list byte)) logs /\
    (last = [] \/
     exists err, last = [AddError (Wrap "error reading stderr: " err)] /\ err <> io_EOF).
Proof.
  intros w w'.
  apply (@cmdReadErr_logs_then_one_error (list byte) (fun _ => (1, EmptyString)) 6
           [Data (bytes "W! disk full"); Fail (errors_New "broken pipe");
            Data (bytes "I! never")] w w').
  reflexivity.
Defined.

(** X10 at work: a line, then [MaxScanTokenSize] bytes without a line end,
    then a further line. *)
Lemma cmdReadErr_stops_at_long_line_witness :
  let q := fun _ : string => (1, EmptyString) in
  let w := new_World (list byte) in
  exists F,
    forall fuel, F <= fuel ->
      cmdReadErr q fuel (map Data example_long_chunks ++ []) w
      = Done (add_events w
                (stderr_events (list byte) q [bytes "I! hi"] []
                 ++ [AddError (Wrap "error reading stderr: " bufio_ErrTooLong)])).
Proof.
  intros q w.
  apply (@cmdReadErr_stops_at_long_line (list byte) q [bytes "I! hi"] example_long
           (NL :: bytes "I! never") example_long_chunks [] w).
  - constructor; [|constructor].
    split; [no_NL_tac|apply Nat.ltb_lt; vm_compute; reflexivity].
  - intros H. apply repeat_spec in H. discriminate H.
  - unfold example_long. rewrite repeat_length. apply le_n.
  - constructor; [|constructor]. unfold example_long_chunks. intros H.
    apply app_eq_nil in H. destruct H as [H _].
    apply app_eq_nil in H. destruct H as [_ H]. discriminate H.
  - unfold example_long_chunks, record. cbn [concat map]. rewrite !app_nil_r. reflexivity.
Defined.

(** X11 at work: a prefix cut short. *)
Lemma cmdReadErr_line_short_witness :
  let q := fun _ : string => (1, EmptyString) in
  level_prefixed "E!" = false /\
  cmdReadErr_line (list byte) q "E!"
  = Log Level_Error ("stderr: " ++ strconv_Quote q "E!")%string.
Proof.
  intros q. apply (@cmdReadErr_line_short (list byte) q "E!"). simpl. lia.
Defined.

(** X12 at work. *)
Lemma cmdReadErr_line_plain_witness :
  let q := fun _ : string => (1, EmptyString) in
  cmdReadErr_line (list byte) q "custom text"
  = Log Level_Error
      ("stderr: " ++ String quote_char ("custom text" ++ str1 quote_char))%string.
Proof.
  intros q. apply (@cmdReadErr_line_plain (list byte) q "custom text"); reflexivity.
Defined.
